(** * RedisDB: bulk load, full scan and recent scan over a key-value store

    A shallow embedding of [RedisDB/RedisDB.py]: the three public methods of
    class [RedisDB] ([upload_csv_to_redis], [redis_data_to_dataframe],
    [heatmap_using_recent_data]) together with the parts of the Python
    runtime they call into ([json.dumps] / [json.loads] on flat records, the
    Redis commands FLUSHALL, SET, GET and KEYS, [sorted], [pd.Categorical]).

    Conventions.
    - A Python [str] is a list of Unicode code points ([pystr]); a [bytes]
      object and ASCII program text are Rocq [string]s.
    - A cell of a record is [None], a [bool], an [int], a [float] or a
      [str]: what [to_dict] puts into the rows of a frame read by
      [pd.read_csv].
    - A Python [dict] is the list of its items in insertion order.
    - An exception is a value of [exn]; a computation either returns or
      raises ([outcome]) and threads the state of the outside world. *)

From Stdlib Require Import ZArith NArith QArith Ascii String List Lia.
From stdpp Require Import base option list gmap strings pretty sorting.

Local Open Scope N_scope.

(** ** Python values *)

Definition pystr := list N.

(** A [float]: not a number, an infinity, or a finite number.  A finite
    float is held as the decimal number that [float.__repr__] prints for
    it (the shortest one that reads back as the same float): a sign, the
    digits [m] and a power of ten [e], for the number [m * 10^e], where
    [m] does not end in the digit 0; zero is [m = 0], [e = 0], with its
    sign. *)
Inductive pyfloat :=
| FNaN
| FInf (neg : bool)
| FFin (neg : bool) (m : N) (e : Z).

Inductive value :=
| VNull
| VInt (z : Z)
| VStr (s : pystr)
| VBool (b : bool)
| VFloat (f : pyfloat).

Definition record := list (pystr * value).

(** [str s] is the Python string whose characters are the bytes of [s]. *)
Definition str (s : string) : pystr :=
  map N_of_ascii (list_ascii_of_string s).

Global Instance pyfloat_eq_dec : EqDecision pyfloat.
Proof. solve_decision. Defined.

Global Instance value_eq_dec : EqDecision value.
Proof. solve_decision. Defined.

(** [d[k] = v] on a dict: an existing key keeps its position. *)
Fixpoint dict_set (d : record) (k : pystr) (v : value) : record :=
  match d with
  | [] => [(k, v)]
  | (k', v') :: d' =>
      if decide (k' = k) then (k, v) :: d' else (k', v') :: dict_set d' k v
  end.

(** [d.get(k)] *)
Fixpoint dict_get (d : record) (k : pystr) : option value :=
  match d with
  | [] => None
  | (k', v') :: d' => if decide (k' = k) then Some v' else dict_get d' k
  end.

(** ** Exceptions and outcomes *)

Inductive exn :=
| RedisError
| JSONDecodeError
| UnicodeDecodeError
| FileNotFoundError
| ParserError
| KeyError
| PlotError.

Inductive outcome (A : Type) :=
| Returned (a : A)
| Raised (e : exn).
Arguments Returned {A} a.
Arguments Raised {A} e.

Module Json.

(** *** [json.dumps] on a flat record *)

Definition dquote : ascii := "034"%char.
Definition backslash : ascii := "092"%char.

Definition hex_digit (n : N) : ascii :=
  match n with
  | 0 => "0" | 1 => "1" | 2 => "2" | 3 => "3" | 4 => "4" | 5 => "5"
  | 6 => "6" | 7 => "7" | 8 => "8" | 9 => "9" | 10 => "a" | 11 => "b"
  | 12 => "c" | 13 => "d" | 14 => "e" | _ => "f"
  end%char.

(** ['{0:04x}'.format(n)] for [n < 0x10000] *)
Definition hex4 (n : N) : string :=
  String (hex_digit (N.shiftr n 12 mod 16))
    (String (hex_digit (N.shiftr n 8 mod 16))
       (String (hex_digit (N.shiftr n 4 mod 16))
          (String (hex_digit (n mod 16)) EmptyString))).

Definition uescape (n : N) : string :=
  String backslash (String "u"%char (hex4 n)).

(** The replacement of one character by [py_encode_basestring_ascii]:
    the short escapes of [ESCAPE_DCT], printable ASCII unchanged, and a
    [\uXXXX] escape (a surrogate pair above the BMP) for the rest. *)
Definition escape_char (c : N) : string :=
  if c =? 92 then String backslash (String backslash EmptyString)
  else if c =? 34 then String backslash (String dquote EmptyString)
  else if c =? 8 then String backslash (String "b"%char EmptyString)
  else if c =? 12 then String backslash (String "f"%char EmptyString)
  else if c =? 10 then String backslash (String "n"%char EmptyString)
  else if c =? 13 then String backslash (String "r"%char EmptyString)
  else if c =? 9 then String backslash (String "t"%char EmptyString)
  else if (32 <=? c) && (c <=? 126) then String (ascii_of_N c) EmptyString
  else if c <? 65536 then uescape c
  else
    let n := c - 65536 in
    let s1 := N.lor 55296 (N.land (N.shiftr n 10) 1023) in
    let s2 := N.lor 56320 (N.land n 1023) in
    uescape s1 +:+ uescape s2.

Fixpoint escape_chars (s : pystr) : string :=
  match s with
  | [] => EmptyString
  | c :: s' => escape_char c +:+ escape_chars s'
  end.

Definition encode_str (s : pystr) : string :=
  String dquote (escape_chars s +:+ String dquote EmptyString).

Definition zeros (n : nat) : string :=
  string_of_list_ascii (replicate n "0"%char).

(** The decimal digits of [m], most significant first. *)
Definition digit_chars (m : N) : list ascii :=
  list_ascii_of_string (pretty m).

(** ['%+.02d' % x]: a sign and at least two digits. *)
Definition exp_text (x : Z) : string :=
  (if (x <? 0)%Z then "-" else "+")
  +:+ (if (Z.abs x <? 10)%Z then "0" else EmptyString)
  +:+ pretty (Z.abs_N x).

(** [float.__repr__] on the digits [m] and the power of ten [e] of a
    finite float.  With [decpt] the position of the decimal point counted
    from the first digit, the exponent form [d.ddde+XX] is used when
    [decpt > 16] or [decpt <= -4]; otherwise the digits are laid out
    around the point, filled up with zeros, and [.0] is added to a whole
    number. *)
Definition finite_repr (m : N) (e : Z) : string :=
  let ds := digit_chars m in
  let n := Z.of_nat (length ds) in
  let decpt := (n + e)%Z in
  if (16 <? decpt)%Z || (decpt <=? -4)%Z then
    match ds with
    | [] => EmptyString
    | [d1] => String d1 ("e" +:+ exp_text (decpt - 1))
    | d1 :: rest =>
        String d1 ("." +:+ string_of_list_ascii rest
                   +:+ "e" +:+ exp_text (decpt - 1))
    end
  else if (decpt <=? 0)%Z then
    "0." +:+ zeros (Z.to_nat (- decpt)) +:+ string_of_list_ascii ds
  else if (n <=? decpt)%Z then
    string_of_list_ascii ds +:+ zeros (Z.to_nat (decpt - n)) +:+ ".0"
  else
    string_of_list_ascii (take (Z.to_nat decpt) ds)
    +:+ "." +:+ string_of_list_ascii (drop (Z.to_nat decpt) ds).

(** [float.__repr__], with the spellings [json.dumps] uses for the floats
    that are not finite. *)
Definition float_repr (f : pyfloat) : string :=
  match f with
  | FNaN => "NaN"
  | FInf false => "Infinity"
  | FInf true => "-Infinity"
  | FFin neg m e => (if neg then "-" else EmptyString) +:+ finite_repr m e
  end.

Definition encode_value (v : value) : string :=
  match v with
  | VNull => "null"
  | VInt z => pretty z
  | VStr s => encode_str s
  | VBool true => "true"
  | VBool false => "false"
  | VFloat f => float_repr f
  end.

Definition encode_item (kv : pystr * value) : string :=
  encode_str kv.1 +:+ ": " +:+ encode_value kv.2.

Fixpoint encode_items (d : record) : string :=
  match d with
  | [] => EmptyString
  | [kv] => encode_item kv
  | kv :: d' => encode_item kv +:+ ", " +:+ encode_items d'
  end.

Definition dumps (d : record) : string :=
  "{" +:+ encode_items d +:+ "}".

(** *** [json.loads] on the text of a flat record

    The scanner is written as a machine that consumes one character at a
    time.  It accepts what [json.loads] accepts among the texts of a single
    object whose members are [null], [true], [false], numbers ([NaN],
    [Infinity] and [-Infinity] included) or strings, with arbitrary JSON
    whitespace, and builds the same [dict]; every other text (a text that
    is not JSON, but also an array or a nested object, which the loader
    never writes) ends in [Fail].

    A number with a fraction or an exponent is read as the float with
    these decimal digits; [float] rounds a literal of more than 17
    significant digits, or one outside the range of a float, to the
    nearest float, which is not modelled. *)

Definition hex_val (c : ascii) : option N :=
  let n := N_of_ascii c in
  if (48 <=? n) && (n <=? 57) then Some (n - 48)
  else if (97 <=? n) && (n <=? 102) then Some (n - 87)
  else if (65 <=? n) && (n <=? 70) then Some (n - 55)
  else None.

Definition digit_val (c : ascii) : option N :=
  let n := N_of_ascii c in
  if (48 <=? n) && (n <=? 57) then Some (n - 48) else None.

Definition is_ws (c : ascii) : bool :=
  let n := N_of_ascii c in
  (n =? 32) || (n =? 9) || (n =? 10) || (n =? 13).

Definition is_high (u : N) : bool := (55296 <=? u) && (u <=? 56319).
Definition is_low (u : N) : bool := (56320 <=? u) && (u <=? 57343).

(** Position inside a string literal. *)
Inductive strmode :=
| Plain
| Esc
| Hex (k : nat) (v : N).

(** The characters decoded so far (latest first) and a high surrogate that
    still waits for its low half. *)
Record strbuf := StrBuf {
  sb_chars : list N;
  sb_pend : option N;
  sb_mode : strmode
}.

Inductive strres :=
| SMore (b : strbuf)
| SEnd (s : pystr)
| SBad.

Definition sb_flush (b : strbuf) : list N :=
  match sb_pend b with
  | Some h => h :: sb_chars b
  | None => sb_chars b
  end.

Definition sb_emit (b : strbuf) (c : N) : strres :=
  SMore (StrBuf (c :: sb_flush b) None Plain).

(** End of a [\uXXXX] escape with value [u], as in [scanstring]. *)
Definition sb_unicode (b : strbuf) (u : N) : strres :=
  match sb_pend b with
  | Some h =>
      if is_low u
      then SMore (StrBuf
             ((65536 + N.lor (N.shiftl (h - 55296) 10) (u - 56320)) :: sb_chars b)
             None Plain)
      else if is_high u then SMore (StrBuf (h :: sb_chars b) (Some u) Plain)
      else SMore (StrBuf (u :: h :: sb_chars b) None Plain)
  | None =>
      if is_high u then SMore (StrBuf (sb_chars b) (Some u) Plain)
      else SMore (StrBuf (u :: sb_chars b) None Plain)
  end.

Definition str_step (b : strbuf) (c : ascii) : strres :=
  let n := N_of_ascii c in
  match sb_mode b with
  | Plain =>
      if n =? 34 then SEnd (rev (sb_flush b))
      else if n =? 92 then SMore (StrBuf (sb_chars b) (sb_pend b) Esc)
      else if n <? 32 then SBad
      else sb_emit b n
  | Esc =>
      if n =? 34 then sb_emit b 34
      else if n =? 92 then sb_emit b 92
      else if n =? 47 then sb_emit b 47
      else if n =? 98 then sb_emit b 8
      else if n =? 102 then sb_emit b 12
      else if n =? 110 then sb_emit b 10
      else if n =? 114 then sb_emit b 13
      else if n =? 116 then sb_emit b 9
      else if n =? 117 then SMore (StrBuf (sb_chars b) (sb_pend b) (Hex 0 0))
      else SBad
  | Hex k v =>
      match hex_val c with
      | None => SBad
      | Some d =>
          let v' := v * 16 + d in
          match k with
          | 3%nat => sb_unicode b v'
          | _ => SMore (StrBuf (sb_chars b) (sb_pend b) (Hex (S k) v'))
          end
      end
  end.

Definition sb_init : strbuf := StrBuf [] None Plain.

(** Position inside the object. *)
Inductive phase :=
| Start
| Open
| InKey (b : strbuf)
| AfterKey (k : pystr)
| BeforeVal (k : pystr)
| InStr (k : pystr) (b : strbuf)
| InNum (k : pystr) (neg : bool) (acc : option N)
| InFrac (k : pystr) (neg : bool) (acc : N) (nfrac : nat)
| InExp (k : pystr) (neg : bool) (acc : N) (nfrac : nat)
    (sign : option bool) (x : option N)
| InLit (k : pystr) (rest : string) (v : value)
| AfterVal
| AfterComma
| Done
| Fail.

Definition machine : Type := record * phase.

Definition after_val (d : record) (c : ascii) : machine :=
  if is_ws c then (d, AfterVal)
  else if Ascii.eqb c ","%char then (d, AfterComma)
  else if Ascii.eqb c "}"%char then (d, Done)
  else (d, Fail).

Definition int_of (neg : bool) (a : N) : Z :=
  if neg then (- Z.of_N a)%Z else Z.of_N a.

(** Dropping the zeros at the end of [a]: [a * 10^e] stays the same. *)
Fixpoint strip_zeros (fuel : nat) (a : N) (e : Z) : N * Z :=
  match fuel with
  | O => (a, e)
  | S fuel' =>
      if a mod 10 =? 0 then strip_zeros fuel' (a / 10) (e + 1)%Z else (a, e)
  end.

(** The float with the decimal digits [a] and the power of ten [e]. *)
Definition float_of (neg : bool) (a : N) (e : Z) : value :=
  if a =? 0 then VFloat (FFin neg 0 0)
  else
    let me := strip_zeros (N.to_nat (N.log2 a)) a e in
    VFloat (FFin neg me.1 me.2).

Definition exp_of (sign : option bool) (x : N) : Z :=
  if default false sign then (- Z.of_N x)%Z else Z.of_N x.

Definition step (m : machine) (c : ascii) : machine :=
  let d := m.1 in
  match m.2 with
  | Start =>
      if is_ws c then (d, Start)
      else if Ascii.eqb c "{"%char then (d, Open)
      else (d, Fail)
  | Open =>
      if is_ws c then (d, Open)
      else if Ascii.eqb c dquote then (d, InKey sb_init)
      else if Ascii.eqb c "}"%char then (d, Done)
      else (d, Fail)
  | InKey b =>
      match str_step b c with
      | SMore b' => (d, InKey b')
      | SEnd k => (d, AfterKey k)
      | SBad => (d, Fail)
      end
  | AfterKey k =>
      if is_ws c then (d, AfterKey k)
      else if Ascii.eqb c ":"%char then (d, BeforeVal k)
      else (d, Fail)
  | BeforeVal k =>
      if is_ws c then (d, BeforeVal k)
      else if Ascii.eqb c dquote then (d, InStr k sb_init)
      else if Ascii.eqb c "-"%char then (d, InNum k true None)
      else if Ascii.eqb c "n"%char then (d, InLit k "ull" VNull)
      else if Ascii.eqb c "t"%char then (d, InLit k "rue" (VBool true))
      else if Ascii.eqb c "f"%char then (d, InLit k "alse" (VBool false))
      else if Ascii.eqb c "N"%char then (d, InLit k "aN" (VFloat FNaN))
      else if Ascii.eqb c "I"%char
      then (d, InLit k "nfinity" (VFloat (FInf false)))
      else match digit_val c with
           | Some n => (d, InNum k false (Some n))
           | None => (d, Fail)
           end
  | InStr k b =>
      match str_step b c with
      | SMore b' => (d, InStr k b')
      | SEnd s => (dict_set d k (VStr s), AfterVal)
      | SBad => (d, Fail)
      end
  | InNum k neg acc =>
      match digit_val c, acc with
      | Some n, None => (d, InNum k neg (Some n))
      | Some n, Some 0 => (d, Fail)
      | Some n, Some a => (d, InNum k neg (Some (a * 10 + n)))
      | None, None =>
          if Ascii.eqb c "I"%char
          then (d, InLit k "nfinity" (VFloat (FInf true)))
          else (d, Fail)
      | None, Some a =>
          if Ascii.eqb c "."%char then (d, InFrac k neg a 0)
          else if Ascii.eqb c "e"%char || Ascii.eqb c "E"%char
          then (d, InExp k neg a 0 None None)
          else after_val (dict_set d k (VInt (int_of neg a))) c
      end
  | InFrac k neg a f =>
      match digit_val c, f with
      | Some n, _ => (d, InFrac k neg (a * 10 + n) (S f))
      | None, O => (d, Fail)
      | None, S _ =>
          if Ascii.eqb c "e"%char || Ascii.eqb c "E"%char
          then (d, InExp k neg a f None None)
          else after_val (dict_set d k (float_of neg a (- Z.of_nat f))) c
      end
  | InExp k neg a f sign x =>
      match digit_val c, x with
      | Some n, None =>
          (d, InExp k neg a f (Some (default false sign)) (Some n))
      | Some n, Some x' => (d, InExp k neg a f sign (Some (x' * 10 + n)))
      | None, None =>
          match sign with
          | None =>
              if Ascii.eqb c "+"%char
              then (d, InExp k neg a f (Some false) None)
              else if Ascii.eqb c "-"%char
              then (d, InExp k neg a f (Some true) None)
              else (d, Fail)
          | Some _ => (d, Fail)
          end
      | None, Some x' =>
          after_val
            (dict_set d k (float_of neg a (exp_of sign x' - Z.of_nat f))) c
      end
  | InLit k rest v =>
      match rest with
      | String c' EmptyString =>
          if Ascii.eqb c c' then (dict_set d k v, AfterVal) else (d, Fail)
      | String c' rest' =>
          if Ascii.eqb c c' then (d, InLit k rest' v) else (d, Fail)
      | EmptyString => (d, Fail)
      end
  | AfterVal => after_val d c
  | AfterComma =>
      if is_ws c then (d, AfterComma)
      else if Ascii.eqb c dquote then (d, InKey sb_init)
      else (d, Fail)
  | Done => if is_ws c then (d, Done) else (d, Fail)
  | Fail => (d, Fail)
  end.

Fixpoint run (m : machine) (s : string) : machine :=
  match s with
  | EmptyString => m
  | String c s' => run (step m c) s'
  end.

Definition loads (s : string) : outcome record :=
  match run ([], Start) s with
  | (d, Done) => Returned d
  | _ => Raised JSONDecodeError
  end.

(** *** Vocabulary of the statements below *)

(** Code points that stand for a character: inside the Unicode range and
    not a surrogate, as in any text decoded from UTF-8. *)
Definition scalar_char (c : N) : bool :=
  (c <? 1114112) && negb ((55296 <=? c) && (c <=? 57343)).

Definition text (s : pystr) : bool := forallb scalar_char s.

(** The digits of a finite float do not end in 0, and zero has the power
    of ten 0: the form in which [float.__repr__] yields them. *)
Definition float_normal (f : pyfloat) : bool :=
  match f with
  | FFin _ m e => if m =? 0 then (e =? 0)%Z else negb (m mod 10 =? 0)
  | _ => true
  end.

Definition text_value (v : value) : bool :=
  match v with
  | VStr s => text s
  | VFloat f => float_normal f
  | _ => true
  end.

(** A dict as [pd.read_csv] and [to_dict] build it: distinct field names,
    field names and string cells made of characters, floats in the form
    above. *)
Definition flat_record (d : record) : bool :=
  bool_decide (NoDup d.*1)
  && forallb (λ kv, text kv.1 && text_value kv.2) d.

(** Both places where a string literal is scanned advance its buffer with
    [str_step]. *)
Definition str_phase (wrap : strbuf → phase) : Prop :=
  ∀ d b c b', str_step b c = SMore b' → step (d, wrap b) c = (d, wrap b').

Definition delim (c : ascii) : Prop := c = ","%char ∨ c = "}"%char.

Definition is_digit (c : ascii) : Prop := is_Some (digit_val c).

(** The number read off a run of digits, continuing from [acc]. *)
Fixpoint digits_val (acc : N) (ds : list ascii) : N :=
  match ds with
  | [] => acc
  | c :: ds' => digits_val (acc * 10 + default 0 (digit_val c)) ds'
  end.

(** A run of digits that may stand before the point: a single 0, or
    digits that do not start with 0. *)
Definition int_digits (ds : list ascii) : Prop :=
  Forall is_digit ds
  ∧ (ds = ["0"%char]
     ∨ ∃ c tl n, ds = c :: tl ∧ digit_val c = Some n ∧ 0 < n).

(** The states in which a number may start: its first digit [n] leads to
    the integer part [n]. *)
Definition num_start (d : record) (k : pystr) (neg : bool) (ph : phase) : Prop :=
  ∀ n, n < 10 → step (d, ph) (pretty_N_char n) = (d, InNum k neg (Some n)).


(** The dict built from the members scanned so far. *)
Definition dict_fill (acc d : record) : record :=
  foldl (λ a kv, dict_set a kv.1 kv.2) acc d.

End Json.

(** ** The outside world

    The Redis keyspace maps key bytes to value bytes.  [faults] tells, for
    each Redis command still to come, whether the server fails on it (a
    [redis.exceptions.RedisError] in the client); an exhausted list means no
    further failure. *)

Record world := World {
  db : gmap string string;
  faults : list bool
}.

Definition M (A : Type) : Type := world → outcome A * world.

Global Instance M_ret : MRet M := λ A a w, (Returned a, w).

Global Instance M_bind : MBind M := λ A B f m w,
  match m w with
  | (Returned a, w') => f a w'
  | (Raised e, w') => (Raised e, w')
  end.

Definition lift {A} (o : outcome A) : M A := λ w, (o, w).

(** [try: body  except Exception as e: handler e] *)
Definition try_except {A} (body : M A) (handler : exn → M A) : M A := λ w,
  match body w with
  | (Returned a, w') => (Returned a, w')
  | (Raised e, w') => handler e w'
  end.

Definition redis_command {A}
    (cmd : gmap string string → A * gmap string string) : M A := λ w,
  match faults w with
  | true :: fs => (Raised RedisError, World (db w) fs)
  | false :: fs => (Returned (cmd (db w)).1, World (cmd (db w)).2 fs)
  | [] => (Returned (cmd (db w)).1, World (cmd (db w)).2 [])
  end.

Definition redis_flushall : M unit :=
  redis_command (λ _, (tt, ∅)).

Definition redis_set (key value : string) : M unit :=
  redis_command (λ s, (tt, <[key:=value]> s)).

Definition redis_get (key : string) : M (option string) :=
  redis_command (λ s, (s !! key, s)).

(** [f'record_{idx}'] *)
Definition record_key (idx : nat) : string := "record_" +:+ pretty idx.

Definition ascii_text (s : string) : bool :=
  forallb (λ c, N_of_ascii c <? 128) (list_ascii_of_string s).

(** [bytes.decode('utf-8')] on the ASCII texts the loader stores; a byte
    above 127 is reported as undecodable. *)
Definition utf8_decode (b : string) : outcome string :=
  if ascii_text b then Returned b else Raised UnicodeDecodeError.

(** [json.loads(redis_data.decode('utf-8'))] *)
Definition decode_item (b : string) : outcome record :=
  match utf8_decode b with
  | Returned s => Json.loads s
  | Raised e => Raised e
  end.

(** ** [sorted(keys, reverse=True)[:limit]] *)

Definition key_ge (a b : string) : Prop := String.le b a.

Global Instance key_ge_dec : RelDecision key_ge.
Proof. intros a b. unfold key_ge. apply _. Defined.

Definition recent_keys (limit : nat) (keys : list string) : list string :=
  take limit (merge_sort key_ge keys).

(** ** [pd.Categorical(column).cat.codes] *)

(** [str] comparison: lexicographic on code points. *)
Fixpoint pystr_leb (a b : pystr) : bool :=
  match a, b with
  | [], _ => true
  | _ :: _, [] => false
  | x :: a', y :: b' => (x <? y) || ((x =? y) && pystr_leb a' b')
  end.

(** The number a finite float stands for. *)
Definition float_number (neg : bool) (m : N) (e : Z) : Q :=
  let q := if (0 <=? e)%Z
           then inject_Z (Z.of_N m * 10 ^ e)
           else Qmake (Z.of_N m) (Z.to_pos (10 ^ (- e))) in
  if neg then Qopp q else q.

(** What a cell is compared by: a missing value ([None], NaN), a number
    ([True] is 1 and [False] is 0; an infinity lies beyond every number) or
    a string. *)
Inductive sort_key :=
| KNull
| KNegInf
| KNum (q : Q)
| KPosInf
| KStr (s : pystr).

Definition sort_key_of (v : value) : sort_key :=
  match v with
  | VNull => KNull
  | VInt z => KNum (inject_Z z)
  | VStr s => KStr s
  | VBool b => KNum (inject_Z (if b then 1 else 0))
  | VFloat FNaN => KNull
  | VFloat (FInf true) => KNegInf
  | VFloat (FInf false) => KPosInf
  | VFloat (FFin neg m e) => KNum (float_number neg m e)
  end.

Definition sort_key_leb (a b : sort_key) : bool :=
  match a, b with
  | KNull, _ => true
  | _, KNull => false
  | KStr x, KStr y => pystr_leb x y
  | KStr _, _ => false
  | _, KStr _ => true
  | KNegInf, _ => true
  | _, KNegInf => false
  | _, KPosInf => true
  | KPosInf, _ => false
  | KNum x, KNum y => Qle_bool x y
  end.

(** The order in which categories are laid out: numbers by value, then
    strings. *)
Definition value_leb (a b : value) : bool :=
  sort_key_leb (sort_key_of a) (sort_key_of b).

Definition value_le (a b : value) : Prop := value_leb a b.

Global Instance value_le_dec : RelDecision value_le.
Proof. intros a b. unfold value_le. apply _. Defined.

(** Two cells that count as one category: equal strings, or equal
    numbers, as [1], [1.0] and [True]. *)
Definition same_value (a b : value) : Prop := value_le a b ∧ value_le b a.

Global Instance same_value_dec : RelDecision same_value.
Proof. intros a b. unfold same_value. apply _. Defined.

(** [pd.notna] *)
Definition notnull (v : value) : bool :=
  match v with
  | VNull => false
  | VFloat FNaN => false
  | _ => true
  end.

(** The values of a list in the order of their first occurrence, one for
    each category. *)
Fixpoint distinct (vs : list value) : list value :=
  match vs with
  | [] => []
  | v :: vs' => v :: filter (λ u, ¬ same_value v u) (distinct vs')
  end.

(** The sorted distinct non-null values of a column. *)
Definition categories (vs : list value) : list value :=
  merge_sort value_le (distinct (filter (λ v, notnull v = true) vs)).

Definition code_of (cats : list value) (v : value) : Z :=
  match list_find (λ u, same_value u v) cats with
  | Some (i, _) => Z.of_nat i
  | None => (-1)%Z
  end.

Definition cat_codes (vs : list value) : list Z :=
  map (code_of (categories vs)) vs.

(** ** Frames: [pd.DataFrame(rows)] seen as its rows *)

Definition has_column (df : list record) (col : pystr) : bool :=
  existsb (λ r, bool_decide (is_Some (dict_get r col))) df.

(** [df[col]] *)
Definition column (df : list record) (col : pystr) : outcome (list value) :=
  if has_column df col
  then Returned (map (λ r, default VNull (dict_get r col)) df)
  else Raised KeyError.

(** [df[col] = vs] *)
Definition set_column (df : list record) (col : pystr) (vs : list value)
    : list record :=
  zip_with (λ r v, dict_set r col v) df vs.

(** [for col in cols: df[col] = pd.Categorical(df[col]).cat.codes] *)
Fixpoint encode_categorical (cols : list pystr) (df : list record)
    : outcome (list record) :=
  match cols with
  | [] => Returned df
  | col :: cols' =>
      match column df col with
      | Returned vs =>
          encode_categorical cols' (set_column df col (map VInt (cat_codes vs)))
      | Raised e => Raised e
      end
  end.

(** [df[cols]] *)
Fixpoint select_columns (df : list record) (cols : list pystr)
    : outcome (list (pystr * list value)) :=
  match cols with
  | [] => Returned []
  | col :: cols' =>
      match column df col, select_columns df cols' with
      | Returned vs, Returned rest => Returned ((col, vs) :: rest)
      | Raised e, _ => Raised e
      | _, Raised e => Raised e
      end
  end.

Definition categorical_cols : list pystr :=
  [str "Sex"; str "Stroke"; str "AgeCategory"; str "Diabetic"; str "Smoking";
   str "HeartDisease"].

Definition columns_to_include : list pystr :=
  [str "Sex"; str "Stroke"; str "AgeCategory"; str "Diabetic"; str "Smoking";
   str "HeartDisease"].

(** ** class RedisDB *)

Section RedisDB.

(** [pd.read_csv(csv_path).to_dict(orient='records')] *)
Variable read_records : string → outcome (list record).

(** The order in which KEYS lists a keyspace. *)
Variable key_order : gmap string string → list string.

Definition redis_keys : M (list string) :=
  redis_command (λ s, (key_order s, s)).

(** [for idx, record in enumerate(data)], from index [idx] on *)
Fixpoint upload_records (idx : nat) (data : list record) : M unit :=
  match data with
  | [] => mret tt
  | record :: data' =>
      let record_json := Json.dumps record in
      redis_set (record_key idx) record_json ;;
      upload_records (S idx) data'
  end.

Definition upload_csv_to_redis (csv_path : string) : M bool :=
  redis_flushall ;;
  try_except
    (data ← lift (read_records csv_path);
     upload_records 0 data ;;
     mret true)
    (λ e, mret false).

Section Scans.

(** What a fetched value is turned into:
    [json.loads(redis_data.decode('utf-8'))]. *)
Context {A : Type} (decode : string → outcome A).

(** The loop shared by both scans: fetch each key, skip a missing value,
    decode and append. *)
Fixpoint fetch (keys : list string) (data : list A) : M (list A) :=
  match keys with
  | [] => mret data
  | key :: keys' =>
      redis_data ← redis_get key;
      match redis_data with
      | Some bytes =>
          data_dict ← lift (decode bytes);
          fetch keys' (data ++ [data_dict])
      | None => fetch keys' data
      end
  end.

Definition scan_all : M (option (list A)) :=
  try_except
    (total_keys ← redis_keys;
     keys ← redis_keys;
     data ← fetch keys [];
     match data with
     | _ :: _ => mret (Some data)
     | [] => mret (Some [])
     end)
    (λ e,
       match e with
       | RedisError => mret None
       | JSONDecodeError => mret None
       | _ => mret None
       end).

(** Lines 136-143 of [heatmap_using_recent_data], with the slice bound as
    a parameter. *)
Definition scan_recent (limit : nat) : M (list A) :=
  keys ← redis_keys;
  fetch (recent_keys limit keys) [].

End Scans.

Definition redis_data_to_dataframe : M (option (list record)) :=
  scan_all decode_item.

Section Heatmap.

(** [sns.heatmap(df_heatmap.corr(), ...)] and [plt.show()] *)
Context {H : Type} (plot : list (pystr * list value) → outcome H).

Definition heatmap_using_recent_data : M (option H) :=
  try_except
    (recent_data ← scan_recent decode_item (N.to_nat 50000);
     let df_recent := recent_data in
     df_recent ← lift (encode_categorical categorical_cols df_recent);
     df_heatmap ← lift (select_columns df_recent columns_to_include);
     heatmap ← lift (plot df_heatmap);
     mret (Some heatmap))
    (λ e, mret None).

End Heatmap.

End RedisDB.

(** ** Vocabulary of the statements below *)

(** No Redis command still to come fails. *)
Definition reliable (w : world) : bool := forallb negb (faults w).

(** What a successful load leaves in the keyspace: the [i]-th record of the
    batch under [record_<idx+i>]. *)
Definition stored_items (idx : nat) (data : list record) : list (string * string) :=
  imap (λ i r, (record_key (idx + i), Json.dumps r)) data.

(** The record stored under a key of a loaded batch. *)
Definition row_of (data : list record) (key : string) : record :=
  match (list_to_map (stored_items 0 data) : gmap string string) !! key with
  | Some v =>
      match decode_item v with
      | Returned r => r
      | Raised _ => []
      end
  | None => []
  end.

(** A cell as [pd.read_csv] yields it: an integer of a 64-bit column; a
    float with at most 17 digits and a power of ten within the range of a
    float. *)
Definition csv_cell (v : value) : bool :=
  match v with
  | VInt z => (- 2 ^ 63 <=? z)%Z && (z <? 2 ^ 64)%Z
  | VFloat (FFin _ m e) => (m <? 10 ^ 17) && (-340 <=? e)%Z && (e <=? 308)%Z
  | _ => true
  end.

(** A row of [pd.read_csv(csv_path).to_dict(orient='records')]. *)
Definition csv_record (d : record) : bool :=
  Json.flat_record d && forallb (λ kv, csv_cell kv.2) d.

(** [a == b] on two cells that are not one and the same object: numbers
    by value, NaN equal to nothing. *)
Definition py_eq (a b : value) : bool :=
  match sort_key_of a, sort_key_of b with
  | KNull, KNull => bool_decide (a = VNull) && bool_decide (b = VNull)
  | KNull, _ => false
  | _, KNull => false
  | _, _ => value_leb a b && value_leb b a
  end.

(** [a == b] on two dicts: the same keys, with equal values. *)
Definition dict_eq (a b : record) : bool :=
  bool_decide (length a = length b)
  && forallb (λ kv, match dict_get b kv.1 with
                    | Some v => py_eq kv.2 v
                    | None => false
                    end) a.

Definition has_nan (d : record) : bool :=
  existsb (λ kv, bool_decide (kv.2 = VFloat FNaN)) d.


Definition value_lt (u v : value) : Prop := value_le u v ∧ ¬ value_le v u.

Global Instance value_lt_dec : RelDecision value_lt.
Proof. intros u v. unfold value_lt. apply _. Defined.

(** *** A small world to run the methods in *)

(** The two records of the worked example. *)
Definition example_rows : list record :=
  [ [(str "Sex", VStr (str "Male")); (str "Smoking", VStr (str "Yes"))];
    [(str "Sex", VStr (str "Female")); (str "Smoking", VStr (str "No"))] ].

(** A record with an integer, a string outside ASCII and the BMP, and a
    null. *)
Definition example_record : record :=
  [(str "BMI", VInt 16); (str "Name", VStr [70; 233; 128512]%N);
   (str "Race", VNull)].

(** The floats 16.6, 3.0, 1.5e-05 and -2.5e+20. *)
Definition f16_6 : pyfloat := FFin false 166 (-1).
Definition f3_0 : pyfloat := FFin false 3 0.
Definition f1_5em5 : pyfloat := FFin false 15 (-6).
Definition fm2_5e20 : pyfloat := FFin true 25 19.

(** Rows as the loader reads them from a file like the heart data set:
    strings, floats, an integer, a boolean, and NaN where a cell is
    empty. *)
Definition csv_row_0 : record :=
  [(str "HeartDisease", VStr (str "No")); (str "BMI", VFloat f16_6);
   (str "PhysicalHealth", VFloat f3_0); (str "SleepTime", VInt 5);
   (str "Race", VFloat FNaN); (str "Asthma", VBool true)].

Definition csv_row_1 : record :=
  [(str "HeartDisease", VStr (str "Yes")); (str "BMI", VFloat f1_5em5);
   (str "PhysicalHealth", VFloat (FInf false)); (str "SleepTime", VInt (-7));
   (str "Race", VStr (str "White")); (str "Asthma", VBool false)].

Definition csv_row_2 : record :=
  [(str "HeartDisease", VStr (str "No")); (str "BMI", VFloat fm2_5e20);
   (str "PhysicalHealth", VFloat (FFin true 0 0)); (str "SleepTime", VInt 0);
   (str "Race", VStr [70; 233; 128512]%N); (str "Asthma", VBool false)].

Definition csv_rows : list record := [csv_row_0; csv_row_1; csv_row_2].

Definition csv_source (csv_path : string) : outcome (list record) :=
  if decide (csv_path = "Data/heart_2020_cleaned.csv")
  then Returned csv_rows
  else Raised FileNotFoundError.

(** A record with a single cell, NaN. *)
Definition nan_record : record := [(str "Race", VFloat FNaN)].

(** The JSON text of an object with the single member [a], its value
    written as [v]. *)
Definition member (v : string) : string :=
  "{" +:+ String Json.dquote ("a" +:+ String Json.dquote (": " +:+ v +:+ "}")).

Definition example_path : string := "Data/heart_2020_cleaned.csv".

(** A source directory that holds the two example records under
    [example_path] and nothing else. *)
Definition example_source (csv_path : string) : outcome (list record) :=
  if decide (csv_path = example_path)
  then Returned example_rows
  else Raised FileNotFoundError.

(** One order in which a server may list its keys. *)
Definition keys_of (m : gmap string string) : list string := (map_to_list m).*1.

(** A server that answers every command and still holds a stale key. *)
Definition example_world : world := World {[ "stale" := "junk" ]} [false; false].

(** ** More vocabulary *)

(** The cells of a column, a missing field read as null. *)
Definition cells (df : list record) (col : pystr) : list value :=
  map (λ r, default VNull (dict_get r col)) df.

(** ** The constructor and the entry point *)

(** A document as [yaml.safe_load] returns it; a mapping is the list of
    its items, keys distinct.  Floats are left out. *)
#[warnings="-register-all"]
Inductive yaml :=
| YNull
| YBool (b : bool)
| YInt (z : Z)
| YStr (s : string)
| YSeq (l : list yaml)
| YMap (m : list (string * yaml)).

(** What stops the constructor: the file cannot be opened or parsed, a
    key is missing, or a value that is not a mapping is subscripted. *)
Inductive init_error :=
| LoadError
| ConfigKeyError (key : string)
| ConfigTypeError.

Fixpoint yaml_lookup (m : list (string * yaml)) (key : string) : option yaml :=
  match m with
  | [] => None
  | (k, v) :: m' => if decide (k = key) then Some v else yaml_lookup m' key
  end.

(** [v[key]] *)
Definition subscript (v : yaml) (key : string) : init_error + yaml :=
  match v with
  | YMap m =>
      match yaml_lookup m key with
      | Some x => inr x
      | None => inl (ConfigKeyError key)
      end
  | _ => inl ConfigTypeError
  end.

(** The arguments handed to [redis.Redis]. *)
Record redis_params := RedisParams {
  host : yaml;
  port : yaml;
  dbindex : yaml;
  password : yaml
}.

(** The lines [main] itself prints (those of the methods it calls are
    left out). *)
Inductive message :=
| Connected
| Uploaded
| UploadFailed
| Unable.

(** How [main] ends: it returns after printing some lines, an exception
    leaves it after some lines, or the object could not be built. *)
Inductive main_outcome :=
| Finished (printed : list message)
| Propagated (e : exn) (printed : list message)
| NotConstructed (e : init_error).

Definition redis_ping : M bool :=
  redis_command (λ s, (true, s)).

Section EntryPoint.

(** [yaml.safe_load(open(config_file))] *)
Variable read_yaml : string → init_error + yaml.

Variable read_records : string → outcome (list record).

(** [isinstance(e, redis.ConnectionError)] *)
Variable connection_error : exn → bool.

Definition load_config (config_file : string) : init_error + yaml :=
  match read_yaml config_file with
  | inr config_data => subscript config_data "redis"
  | inl e => inl e
  end.

(** [RedisDB.__init__] *)
Definition RedisDB_init (config_file : string) : init_error + redis_params :=
  match load_config config_file with
  | inl e => inl e
  | inr redis_config =>
      match subscript redis_config "host" with
      | inl e => inl e
      | inr h =>
          match subscript redis_config "port" with
          | inl e => inl e
          | inr p =>
              match subscript redis_config "db" with
              | inl e => inl e
              | inr d =>
                  inr (RedisParams h p d
                         (match redis_config with
                          | YMap m => default YNull (yaml_lookup m "password")
                          | _ => YNull
                          end))
              end
          end
      end
  end.

Definition main (w : world) : main_outcome * world :=
  match RedisDB_init "config.yaml" with
  | inl e => (NotConstructed e, w)
  | inr uploader =>
      let csv_path := "Data/heart_2020_cleaned.csv" in
      match redis_ping w with
      | (Raised e, w1) =>
          if connection_error e then (Finished [Unable], w1)
          else (Propagated e [], w1)
      | (Returned _, w1) =>
          match upload_csv_to_redis read_records csv_path w1 with
          | (Returned true, w2) => (Finished [Connected; Uploaded], w2)
          | (Returned false, w2) => (Finished [Connected; UploadFailed], w2)
          | (Raised e, w2) =>
              if connection_error e then (Finished [Connected; Unable], w2)
              else (Propagated e [Connected], w2)
          end
      end
  end.

End EntryPoint.

(** *** More example data *)

(** A source whose file holds a header and no row. *)
Definition empty_source (csv_path : string) : outcome (list record) := Returned [].

(** The keyspace a load of the example records leaves behind. *)
Definition loaded_world : world :=
  World (list_to_map (stored_items 0 example_rows)) [].

(** Two rows with the six categorical columns. *)
Definition heart_rows : list record :=
  [ [(str "HeartDisease", VStr (str "No")); (str "Smoking", VStr (str "Yes"));
     (str "Stroke", VStr (str "No")); (str "Sex", VStr (str "Female"));
     (str "AgeCategory", VStr (str "55-59")); (str "Diabetic", VStr (str "Yes"))];
    [(str "HeartDisease", VStr (str "Yes")); (str "Smoking", VStr (str "No"));
     (str "Stroke", VStr (str "No")); (str "Sex", VStr (str "Male"));
     (str "AgeCategory", VStr (str "80 or older")); (str "Diabetic", VStr (str "No"))] ].

Definition heart_world : world :=
  World (list_to_map (stored_items 0 heart_rows)) [].

(** A configuration without password. *)
Definition example_config : list (string * yaml) :=
  [("redis", YMap [("host", YStr "localhost"); ("port", YInt 6379);
                   ("db", YInt 0)])].

Definition example_yaml (config_file : string) : init_error + yaml :=
  if decide (config_file = "config.yaml")
  then inr (YMap example_config)
  else inl LoadError.

(** Keys listed in the opposite order of [keys_of]. *)
Definition keys_of_reversed (m : gmap string string) : list string :=
  reverse (keys_of m).

(** * Facts about the JSON codec *)

Module JsonFacts.
Import Json.

Local Arguments String.append : simpl nomatch.

Lemma run_app m s1 s2 : run m (s1 +:+ s2) = run (run m s1) s2.
Proof. revert m. induction s1 as [|c s1 IH]; intros m; simpl; auto. Qed.

Lemma run_cons m c s : run m (String c s) = run (step m c) s.
Proof. done. Qed.

Lemma hex_val_digit d : d < 16 → hex_val (hex_digit d) = Some d.
Proof.
  intros Hd.
  assert (Hcases : Forall (λ x, hex_val (hex_digit x) = Some x)
                     (N.of_nat <$> seq 0 16)).
  { by repeat constructor. }
  rewrite Forall_forall in Hcases. apply Hcases.
  apply list_elem_of_fmap. exists (N.to_nat d). split; [lia|].
  apply elem_of_seq. lia.
Qed.

Lemma digit_val_char d : d < 10 → digit_val (pretty_N_char d) = Some d.
Proof.
  intros Hd.
  assert (Hcases : Forall (λ x, digit_val (pretty_N_char x) = Some x)
                     (N.of_nat <$> seq 0 10)).
  { by repeat constructor. }
  rewrite Forall_forall in Hcases. apply Hcases.
  apply list_elem_of_fmap. exists (N.to_nat d). split; [lia|].
  apply elem_of_seq. lia.
Qed.

Lemma str_phase_key : str_phase InKey.
Proof. intros d b c b' Hs. unfold step; simpl. by rewrite Hs. Qed.

Lemma str_phase_val k : str_phase (InStr k).
Proof. intros d b c b' Hs. unfold step; simpl. by rewrite Hs. Qed.

Lemma hex4_value u :
  u < 65536 →
  (((0 * 16 + N.shiftr u 12 mod 16) * 16 + N.shiftr u 8 mod 16) * 16
   + N.shiftr u 4 mod 16) * 16 + u mod 16 = u.
Proof.
  intros Hu. rewrite !N.shiftr_div_pow2.
  change (2 ^ 12) with (16 * 256). change (2 ^ 8) with (16 * 16).
  change (2 ^ 4) with 16. change 256 with (16 * 16).
  rewrite <- !N.Div0.div_div.
  pose proof (N.div_mod u 16 ltac:(lia)) as H0.
  pose proof (N.div_mod (u / 16) 16 ltac:(lia)) as H1.
  pose proof (N.div_mod (u / 16 / 16) 16 ltac:(lia)) as H2.
  assert (u / 16 / 16 / 16 < 16).
  { rewrite !N.Div0.div_div. apply N.Div0.div_lt_upper_bound; lia. }
  rewrite (N.mod_small (u / 16 / 16 / 16) 16) by done.
  lia.
Qed.

Lemma run_uescape wrap d chars pend u b' rest :
  str_phase wrap → u < 65536 →
  sb_unicode (StrBuf chars pend Plain) u = SMore b' →
  run (d, wrap (StrBuf chars pend Plain)) (uescape u +:+ rest)
  = run (d, wrap b') rest.
Proof.
  intros Hw Hu Hb. unfold uescape, hex4. simpl.
  rewrite (Hw d _ backslash (StrBuf chars pend Esc)) by reflexivity.
  rewrite (Hw d _ "u"%char (StrBuf chars pend (Hex 0 0))) by reflexivity.
  assert (Hhex : ∀ k v x, (k < 3)%nat → x < 16 →
            str_step (StrBuf chars pend (Hex k v)) (hex_digit x)
            = SMore (StrBuf chars pend (Hex (S k) (v * 16 + x)))).
  { intros k v x Hk Hx. unfold str_step; simpl. rewrite hex_val_digit by done.
    destruct k as [|[|[|k]]]; try reflexivity; lia. }
  rewrite (Hw d _ _ _ (Hhex 0%nat _ _ ltac:(lia) ltac:(by apply N.mod_lt))).
  rewrite (Hw d _ _ _ (Hhex 1%nat _ _ ltac:(lia) ltac:(by apply N.mod_lt))).
  rewrite (Hw d _ _ _ (Hhex 2%nat _ _ ltac:(lia) ltac:(by apply N.mod_lt))).
  rewrite (Hw d _ (hex_digit (u mod 16)) b'); [done|].
  unfold str_step; simpl. rewrite hex_val_digit by (by apply N.mod_lt).
  rewrite hex4_value by done. exact Hb.
Qed.

Lemma sapp_assoc (s1 s2 s3 : string) : (s1 +:+ s2) +:+ s3 = s1 +:+ (s2 +:+ s3).
Proof. induction s1 as [|c s1 IH]; simpl; [done|]. by rewrite IH. Qed.

Lemma lor_shiftl_low h l : l < 1024 → N.lor (N.shiftl h 10) l = h * 1024 + l.
Proof.
  intros Hl.
  assert (Hland : N.land (N.shiftl h 10) l = 0).
  { apply N.bits_inj_0. intros n. rewrite N.land_spec.
    destruct (N.lt_ge_cases n 10) as [Hn|Hn].
    - by rewrite N.shiftl_spec_low.
    - destruct (N.eq_dec l 0) as [->|Hl0].
      + by rewrite N.bits_0, andb_false_r.
      + rewrite (N.bits_above_log2 l n), andb_false_r; [done|].
        eapply N.lt_le_trans; [|exact Hn].
        apply N.log2_lt_pow2; [lia|]. exact Hl. }
  rewrite <- N.lxor_lor, <- N.add_nocarry_lxor by done.
  by rewrite N.shiftl_mul_pow2.
Qed.

(** The two halves written for a character above the BMP. *)
Lemma surrogate_halves n :
  n < 1048576 →
  N.lor 55296 (N.land (N.shiftr n 10) 1023) = 55296 + n / 1024
  ∧ N.lor 56320 (N.land n 1023) = 56320 + n mod 1024.
Proof.
  intros Hn.
  change 1023 with (N.ones 10). rewrite !N.land_ones, N.shiftr_div_pow2.
  change (2 ^ 10) with 1024.
  assert (n / 1024 < 1024) by (apply N.Div0.div_lt_upper_bound; lia).
  rewrite (N.mod_small (n / 1024)) by done.
  change 55296 with (N.shiftl 54 10). change 56320 with (N.shiftl 55 10).
  rewrite !lor_shiftl_low; [done| |done]. by apply N.mod_lt.
Qed.

Lemma is_high_half x : x < 1024 → is_high (55296 + x) = true.
Proof.
  intros Hx. unfold is_high. apply andb_true_iff.
  split; apply N.leb_le; lia.
Qed.

Lemma is_low_half x : x < 1024 → is_low (56320 + x) = true.
Proof.
  intros Hx. unfold is_low. apply andb_true_iff.
  split; apply N.leb_le; lia.
Qed.

Lemma run_escape_char wrap d chars c rest :
  str_phase wrap → scalar_char c = true →
  run (d, wrap (StrBuf chars None Plain)) (escape_char c +:+ rest)
  = run (d, wrap (StrBuf (c :: chars) None Plain)) rest.
Proof.
  intros Hw Hc. unfold scalar_char in Hc.
  apply andb_true_iff in Hc as [Hmax Hsur].
  apply N.ltb_lt in Hmax. apply negb_true_iff in Hsur.
  assert (Hshort : ∀ e x,
    str_step (StrBuf chars None Esc) e = SMore (StrBuf (x :: chars) None Plain) →
    run (d, wrap (StrBuf chars None Plain))
        (String backslash (String e EmptyString) +:+ rest)
    = run (d, wrap (StrBuf (x :: chars) None Plain)) rest).
  { intros e x He. simpl.
    rewrite (Hw d _ backslash (StrBuf chars None Esc)) by reflexivity.
    by rewrite (Hw d _ e _ He). }
  unfold escape_char.
  destruct (N.eqb_spec c 92) as [->|H92]; [by apply Hshort|].
  destruct (N.eqb_spec c 34) as [->|H34]; [by apply Hshort|].
  destruct (N.eqb_spec c 8) as [->|H8]; [by apply Hshort|].
  destruct (N.eqb_spec c 12) as [->|H12]; [by apply Hshort|].
  destruct (N.eqb_spec c 10) as [->|H10]; [by apply Hshort|].
  destruct (N.eqb_spec c 13) as [->|H13]; [by apply Hshort|].
  destruct (N.eqb_spec c 9) as [->|H9]; [by apply Hshort|].
  destruct ((32 <=? c) && (c <=? 126)) eqn:Hprint.
  - apply andb_true_iff in Hprint as [Hlo Hhi].
    apply N.leb_le in Hlo, Hhi. simpl.
    rewrite (Hw d _ _ (StrBuf (c :: chars) None Plain)); [done|].
    unfold str_step; simpl. rewrite N_ascii_embedding by lia.
    destruct (N.eqb_spec c 34); [done|]. destruct (N.eqb_spec c 92); [done|].
    destruct (N.ltb_spec c 32); [lia|]. done.
  - destruct (N.ltb_spec c 65536) as [Hbmp|Hbmp].
    + apply run_uescape; [done..|].
      unfold sb_unicode, is_high; simpl.
      destruct ((55296 <=? c) && (c <=? 56319)) eqn:Hh; [|done].
      apply andb_true_iff in Hh as [?%N.leb_le ?%N.leb_le].
      apply andb_false_iff in Hsur as [?%N.leb_gt|?%N.leb_gt]; lia.
    + destruct (surrogate_halves (c - 65536)) as [Hs1 Hs2]; [lia|].
      cbv zeta. rewrite Hs1, Hs2, sapp_assoc.
      assert ((c - 65536) / 1024 < 1024)
        by (apply N.Div0.div_lt_upper_bound; lia).
      assert ((c - 65536) mod 1024 < 1024) by (by apply N.mod_lt).
      rewrite (run_uescape wrap d chars None _
                 (StrBuf chars (Some (55296 + (c - 65536) / 1024)) Plain));
        [|done|lia|].
      2:{ unfold sb_unicode; cbn [sb_pend sb_chars].
          by rewrite is_high_half. }
      apply run_uescape; [done|lia|].
      unfold sb_unicode; cbn [sb_pend sb_chars]. rewrite is_low_half by done.
      do 3 f_equal.
      assert (Hsub : ∀ a x, a + x - a = x) by (intros; lia).
      rewrite !Hsub.
      rewrite lor_shiftl_low by done.
      pose proof (N.div_mod (c - 65536) 1024 ltac:(lia)). lia.
Qed.

Lemma run_escape_chars wrap d s chars rest :
  str_phase wrap → text s = true →
  run (d, wrap (StrBuf chars None Plain)) (escape_chars s +:+ rest)
  = run (d, wrap (StrBuf (rev s ++ chars) None Plain)) rest.
Proof.
  intros Hw. revert chars.
  induction s as [|c s IH]; intros chars Hs; simpl; [done|].
  apply andb_true_iff in Hs as [Hc Hs].
  rewrite sapp_assoc, run_escape_char by done.
  rewrite IH by done. by rewrite <- (assoc_L (++)).
Qed.

Lemma pretty_N_go_app x s t : pretty_N_go x s +:+ t = pretty_N_go x (s +:+ t).
Proof.
  revert s. induction (N.lt_wf_0 x) as [x _ IH]; intros s.
  destruct (N.eq_dec x 0) as [->|Hx]; [by rewrite !pretty_N_go_0|].
  rewrite (pretty_N_go_step x s), (pretty_N_go_step x (s +:+ t)) by lia.
  rewrite IH; [done|]. apply N.div_lt; lia.
Qed.

(** Scanning the decimal digits of a positive number. *)
Lemma run_digits d k neg st0 x s :
  (∀ n, n < 10 → step (d, st0) (pretty_N_char n) = (d, InNum k neg (Some n))) →
  0 < x →
  run (d, st0) (pretty_N_go x s) = run (d, InNum k neg (Some x)) s.
Proof.
  intros Hfirst. revert s.
  induction (N.lt_wf_0 x) as [x _ IH]; intros s Hx.
  rewrite pretty_N_go_step by done.
  assert (Hmod : x mod 10 < 10) by (by apply N.mod_lt).
  destruct (N.eq_dec (x / 10) 0) as [Hq|Hq].
  - rewrite Hq, pretty_N_go_0. simpl. rewrite Hfirst by done.
    pose proof (N.div_mod x 10 ltac:(lia)) as Hdm.
    rewrite Hq, N.mul_0_r, N.add_0_l in Hdm. by rewrite <- Hdm.
  - rewrite IH; [|apply N.div_lt; lia|by apply N.neq_0_lt_0]. simpl.
    replace (step (d, InNum k neg (Some (x / 10))) (pretty_N_char (x mod 10)))
      with (d, InNum k neg (Some x)); [done|].
    unfold step; simpl. rewrite digit_val_char by done.
    pose proof (N.div_mod x 10 ltac:(lia)).
    destruct (x / 10) as [|q] eqn:Hdiv; [done|].
    do 3 f_equal. lia.
Qed.

(** *** Numbers with a fraction or an exponent *)

Lemma digit_cases c n : digit_val c = Some n → n < 10 ∧ c = pretty_N_char n.
Proof.
  unfold digit_val. cbv zeta.
  destruct ((48 <=? N_of_ascii c) && (N_of_ascii c <=? 57)) eqn:Hr; [|done].
  apply andb_true_iff in Hr as [Hlo%N.leb_le Hhi%N.leb_le].
  intros [= <-]. split; [lia|].
  rewrite <- (ascii_N_embedding c) at 1.
  assert (Hcases : Forall (λ x, ascii_of_N (x + 48) = pretty_N_char x)
                     (N.of_nat <$> seq 0 10)).
  { by repeat constructor. }
  rewrite Forall_forall in Hcases.
  replace (N_of_ascii c) with (N_of_ascii c - 48 + 48) at 1 by lia.
  apply Hcases. apply list_elem_of_fmap. exists (N.to_nat (N_of_ascii c - 48)).
  split; [lia|]. apply elem_of_seq. lia.
Qed.

Lemma chars_app (l1 l2 : list ascii) :
  string_of_list_ascii (l1 ++ l2)
  = string_of_list_ascii l1 +:+ string_of_list_ascii l2.
Proof. induction l1 as [|c l1 IH]; simpl; [done|]. by rewrite IH. Qed.

Lemma digits_val_app acc l1 l2 :
  digits_val acc (l1 ++ l2) = digits_val (digits_val acc l1) l2.
Proof. revert acc. induction l1 as [|c l1 IH]; intros acc; simpl; auto. Qed.

Lemma digits_val_zeros acc z :
  digits_val acc (replicate z "0"%char) = acc * 10 ^ N.of_nat z.
Proof.
  revert acc. induction z as [|z IH]; intros acc.
  - simpl. lia.
  - simpl replicate. cbn [digits_val]. rewrite IH.
    change (default 0 (digit_val "0")) with 0.
    rewrite Nat2N.inj_succ, N.pow_succ_r'. lia.
Qed.

Lemma is_digit_zeros z : Forall is_digit (replicate z "0"%char).
Proof. apply Forall_replicate. by exists 0. Qed.

Lemma digits_go x s :
  Forall is_digit (list_ascii_of_string s) →
  Forall is_digit (list_ascii_of_string (pretty_N_go x s))
  ∧ digits_val 0 (list_ascii_of_string (pretty_N_go x s))
    = digits_val x (list_ascii_of_string s).
Proof.
  revert s. induction (N.lt_wf_0 x) as [x _ IH]; intros s Hs.
  destruct (N.eq_dec x 0) as [->|Hx]; [by rewrite pretty_N_go_0|].
  rewrite pretty_N_go_step by lia.
  assert (Hmod : x mod 10 < 10) by (by apply N.mod_lt).
  destruct (IH (x / 10) ltac:(apply N.div_lt; lia)
              (String (pretty_N_char (x mod 10)) s)) as [Hall Hval].
  { simpl. constructor; [|done]. exists (x mod 10). by apply digit_val_char. }
  split; [done|]. rewrite Hval. simpl. rewrite digit_val_char by done. simpl.
  f_equal. pose proof (N.div_mod x 10 ltac:(lia)). lia.
Qed.

Lemma digits_go_head x s :
  0 < x →
  ∃ c tl n, list_ascii_of_string (pretty_N_go x s) = c :: tl
            ∧ digit_val c = Some n ∧ 0 < n.
Proof.
  revert s. induction (N.lt_wf_0 x) as [x _ IH]; intros s Hx.
  rewrite pretty_N_go_step by done.
  assert (Hmod : x mod 10 < 10) by (by apply N.mod_lt).
  destruct (N.eq_dec (x / 10) 0) as [Hq|Hq].
  - rewrite Hq, pretty_N_go_0. simpl. eexists _, _, (x mod 10).
    split; [done|]. split; [by apply digit_val_char|].
    pose proof (N.div_mod x 10 ltac:(lia)). lia.
  - apply IH; [apply N.div_lt; lia|by apply N.neq_0_lt_0].
Qed.

(** The digits of a number: they read back as the number, and only the
    digits of 0 start with 0. *)
Lemma digit_chars_spec m :
  int_digits (digit_chars m) ∧ digits_val 0 (digit_chars m) = m
  ∧ (m = 0 → digit_chars m = ["0"%char])
  ∧ (0 < m → ∃ c tl n, digit_chars m = c :: tl ∧ digit_val c = Some n ∧ 0 < n).
Proof.
  unfold digit_chars, int_digits.
  change (pretty m)
    with (if decide (m = 0) then "0"%string else pretty_N_go m EmptyString).
  destruct (decide (m = 0)) as [->|Hm].
  - split_and!; [by repeat constructor; exists 0|by left|done|done|lia].
  - destruct (digits_go m EmptyString) as [Hall Hval]; [constructor|].
    assert (0 < m) as Hpos by lia.
    split_and!; [done|right; by apply digits_go_head|done|done|].
    intros _. by apply digits_go_head.
Qed.

Lemma step_int_digit d k neg a c n :
  0 < a → digit_val c = Some n →
  step (d, InNum k neg (Some a)) c = (d, InNum k neg (Some (a * 10 + n))).
Proof.
  intros Ha Hc. unfold step; simpl. rewrite Hc. by destruct a; [lia|].
Qed.

Lemma run_int_digits d k neg a ds rest :
  0 < a → Forall is_digit ds →
  run (d, InNum k neg (Some a)) (string_of_list_ascii ds +:+ rest)
  = run (d, InNum k neg (Some (digits_val a ds))) rest.
Proof.
  intros Ha Hds. revert a Ha.
  induction Hds as [|c ds [n Hc] _ IH]; intros a Ha; [done|].
  simpl. rewrite (step_int_digit _ _ _ _ _ n) by done.
  rewrite Hc. simpl. apply IH. lia.
Qed.

(** The integer part of a number. *)
Lemma run_int_part d k neg ph ds rest :
  num_start d k neg ph → int_digits ds →
  run (d, ph) (string_of_list_ascii ds +:+ rest)
  = run (d, InNum k neg (Some (digits_val 0 ds))) rest.
Proof.
  intros Hph [Hds [->|(c & tl & n & -> & Hc & Hn)]].
  - simpl. change "0"%char with (pretty_N_char 0). by rewrite (Hph 0).
  - apply digit_cases in Hc as Hc'. destruct Hc' as [Hlt ->].
    simpl. rewrite (Hph n) by done. rewrite Hc. simpl.
    apply run_int_digits; [done|]. by apply Forall_cons in Hds as [_ ?].
Qed.

Lemma run_frac_digits d k neg a f ds rest :
  Forall is_digit ds →
  run (d, InFrac k neg a f) (string_of_list_ascii ds +:+ rest)
  = run (d, InFrac k neg (digits_val a ds) (length ds + f)) rest.
Proof.
  intros Hds. revert a f.
  induction Hds as [|c ds [n Hc] _ IH]; intros a f; [done|].
  simpl.
  replace (step (d, InFrac k neg a f) c) with (d, InFrac k neg (a * 10 + n) (S f)).
  - rewrite Hc. simpl. rewrite IH. by rewrite Nat.add_succ_r.
  - unfold step; simpl. by rewrite Hc.
Qed.

Lemma run_exp_digits d k neg a f s x ds rest :
  Forall is_digit ds →
  run (d, InExp k neg a f (Some s) (Some x)) (string_of_list_ascii ds +:+ rest)
  = run (d, InExp k neg a f (Some s) (Some (digits_val x ds))) rest.
Proof.
  intros Hds. revert x.
  induction Hds as [|c ds [n Hc] _ IH]; intros x; [done|].
  simpl.
  replace (step (d, InExp k neg a f (Some s) (Some x)) c)
    with (d, InExp k neg a f (Some s) (Some (x * 10 + n))).
  - rewrite Hc. simpl. apply IH.
  - unfold step; simpl. by rewrite Hc.
Qed.

Lemma sapp_cons c (s t : string) : String c s +:+ t = String c (s +:+ t).
Proof. done. Qed.

Lemma strip_zeros_spec fuel m j e :
  m mod 10 ≠ 0 → (j ≤ fuel)%nat →
  strip_zeros fuel (m * 10 ^ N.of_nat j) e = (m, (e + Z.of_nat j)%Z).
Proof.
  intros Hm. revert fuel e. induction j as [|j IH]; intros fuel e Hj.
  - rewrite N.mul_1_r, Z.add_0_r. destruct fuel as [|fuel]; [done|].
    simpl. by destruct (N.eqb_spec (m mod 10) 0).
  - destruct fuel as [|fuel]; [lia|].
    rewrite Nat2N.inj_succ, N.pow_succ_r', (N.mul_comm 10), N.mul_assoc.
    simpl. rewrite N.Div0.mod_mul, N.div_mul by done. simpl.
    rewrite IH by lia. f_equal. lia.
Qed.

Lemma float_of_spec neg m e j :
  float_normal (FFin neg m e) = true →
  float_of neg (m * 10 ^ N.of_nat j) (e - Z.of_nat j) = VFloat (FFin neg m e).
Proof.
  unfold float_normal, float_of.
  destruct (N.eqb_spec m 0) as [->|Hm].
  - intros ->%Z.eqb_eq. done.
  - intros Hmod%negb_true_iff%N.eqb_neq.
    assert (Hpow : 0 < 10 ^ N.of_nat j).
    { apply N.neq_0_lt_0, N.pow_nonzero. done. }
    destruct (N.eqb_spec (m * 10 ^ N.of_nat j) 0) as [H0|H0]; [lia|].
    rewrite strip_zeros_spec; [simpl; do 2 f_equal; lia|done|].
    assert (N.of_nat j ≤ N.log2 (m * 10 ^ N.of_nat j)); [|lia].
    apply N.log2_le_pow2; [lia|].
    transitivity (10 ^ N.of_nat j); [apply N.pow_le_mono_l; lia|].
    nia.
Qed.

Lemma run_exp_first d k neg a f s ds rest :
  Forall is_digit ds → ds ≠ [] →
  run (d, InExp k neg a f (Some s) None) (string_of_list_ascii ds +:+ rest)
  = run (d, InExp k neg a f (Some s) (Some (digits_val 0 ds))) rest.
Proof.
  intros Hds Hne. destruct ds as [|c ds]; [done|].
  apply Forall_cons in Hds as [[n Hc] Hds]. simpl.
  replace (step (d, InExp k neg a f (Some s) None) c)
    with (d, InExp k neg a f (Some s) (Some n)).
  - rewrite Hc. simpl. by apply run_exp_digits.
  - unfold step; simpl. by rewrite Hc.
Qed.

(** The exponent of a float in exponent form. *)
Lemma run_exp_text d k neg a f x c rest :
  delim c →
  run (d, InExp k neg a f None None) (exp_text x +:+ String c rest)
  = run (after_val (dict_set d k (float_of neg a (x - Z.of_nat f))) c) rest.
Proof.
  intros Hc. unfold exp_text.
  destruct (digit_chars_spec (Z.abs_N x)) as ([Hall Hhead] & Hval & _ & _).
  assert (Hne : digit_chars (Z.abs_N x) ≠ []).
  { intros Hnil.
    destruct Hhead as [H|(c' & tl & n' & H & _)]; rewrite H in Hnil; done. }
  set (s := (x <? 0)%Z).
  set (pad := if (Z.abs x <? 10)%Z then ["0"%char] else []).
  assert (Htext : ((if s then "-" else "+")
                   +:+ (if (Z.abs x <? 10)%Z then "0" else EmptyString)
                   +:+ pretty (Z.abs_N x)) +:+ String c rest
                  = String (if s then "-" else "+")%char
                      (string_of_list_ascii (pad ++ digit_chars (Z.abs_N x))
                       +:+ String c rest)).
  { unfold pad, digit_chars. rewrite chars_app, string_of_list_ascii_of_string.
    destruct s, (Z.abs x <? 10)%Z; reflexivity. }
  rewrite Htext, run_cons.
  replace (step (d, InExp k neg a f None None) (if s then "-" else "+")%char)
    with (d, InExp k neg a f (Some s) None) by (by destruct s).
  rewrite run_exp_first.
  - assert (digits_val 0 (pad ++ digit_chars (Z.abs_N x)) = Z.abs_N x) as ->.
    { rewrite digits_val_app. unfold pad. by destruct (Z.abs x <? 10)%Z. }
    rewrite run_cons. f_equal.
    assert (exp_of (Some s) (Z.abs_N x) = x) as Hx.
    { unfold exp_of, s. simpl. rewrite N2Z.inj_abs_N.
      destruct (Z.ltb_spec x 0); lia. }
    rewrite <- Hx at 2.
    unfold step; simpl. by destruct Hc as [-> | ->].
  - apply Forall_app. split; [|done].
    unfold pad. destruct (Z.abs x <? 10)%Z; [|constructor].
    repeat constructor. by exists 0.
  - unfold pad. destruct (Z.abs x <? 10)%Z; [done|].
    by rewrite app_nil_l.
Qed.

Lemma step_int_point d k neg a :
  step (d, InNum k neg (Some a)) "."%char = (d, InFrac k neg a 0).
Proof. done. Qed.

Lemma step_frac_digit d k neg a f c n :
  digit_val c = Some n →
  step (d, InFrac k neg a f) c = (d, InFrac k neg (a * 10 + n) (S f)).
Proof. intros Hc. unfold step; simpl. by rewrite Hc. Qed.

Lemma run_frac_end d k neg a f c rest :
  delim c → f ≠ 0%nat →
  run (d, InFrac k neg a f) (String c rest)
  = run (after_val (dict_set d k (float_of neg a (- Z.of_nat f))) c) rest.
Proof.
  intros Hc Hf. destruct f as [|f]; [done|].
  rewrite run_cons. f_equal. unfold step.
  by destruct Hc as [-> | ->].
Qed.

(** Scanning the text of a finite float gives the float back. *)
Lemma run_finite d k neg ph m e c rest :
  num_start d k neg ph → float_normal (FFin neg m e) = true → delim c →
  run (d, ph) (finite_repr m e +:+ String c rest)
  = run (after_val (dict_set d k (VFloat (FFin neg m e))) c) rest.
Proof.
  intros Hph Hn Hc.
  destruct (digit_chars_spec m) as (Hint & Hval & Hzero & Hpos).
  unfold finite_repr. cbv zeta.
  remember (digit_chars m) as ds eqn:Hds.
  assert (Hm0 : m = 0 → e = 0%Z ∧ ds = ["0"%char]).
  { intros ->. split; [|by apply Hzero].
    unfold float_normal in Hn. simpl in Hn. by apply Z.eqb_eq in Hn. }
  assert (Hlen : ds ≠ []).
  { destruct Hint as [_ [->|(c1 & tl & n1 & -> & _)]]; done. }
  destruct ((16 <? Z.of_nat (length ds) + e)%Z
            || (Z.of_nat (length ds) + e <=? -4)%Z) eqn:Hexp.
  - (* d.ddde+XX *)
    assert (Hm : 0 < m).
    { apply N.neq_0_lt_0. intros Hm. destruct (Hm0 Hm) as [-> ->].
      by vm_compute in Hexp. }
    destruct (Hpos Hm) as (c1 & tl & n1 & -> & Hc1 & Hn1).
    apply digit_cases in Hc1 as Hc1'. destruct Hc1' as [Hlt ->].
    simpl in Hval. rewrite Hc1 in Hval. simpl in Hval.
    rewrite N.mul_0_l, N.add_0_l in Hval.
    destruct Hint as [Hall _]. apply Forall_cons in Hall as [_ Hall].
    destruct tl as [|c2 tl].
    + simpl in Hval. subst n1.
      rewrite sapp_cons, run_cons, (Hph m) by done.
      change ("e" +:+ ?s) with (String "e"%char s).
      rewrite sapp_cons, run_cons.
      replace (step (d, InNum k neg (Some m)) "e"%char)
        with (d, InExp k neg m 0 None None) by reflexivity.
      rewrite run_exp_text by done. do 4 f_equal.
      rewrite <- (float_of_spec neg m e 0) by done.
      rewrite N.mul_1_r. f_equal. simpl. lia.
    + rewrite sapp_cons, run_cons, (Hph n1) by done.
      rewrite !sapp_assoc.
      change ("." +:+ ?s) with (String "."%char s).
      rewrite run_cons.
      rewrite step_int_point.
      rewrite run_frac_digits by done. rewrite Hval.
      change ("e" +:+ ?s) with (String "e"%char s).
      rewrite run_cons.
      replace (step (d, InFrac k neg m (length (c2 :: tl) + 0)) "e"%char)
        with (d, InExp k neg m (length (c2 :: tl) + 0) None None) by reflexivity.
      rewrite run_exp_text by done. do 4 f_equal.
      rewrite <- (float_of_spec neg m e 0) by done.
      rewrite N.mul_1_r. f_equal. simpl length. lia.
  - apply orb_false_iff in Hexp as [Hhi%Z.ltb_ge Hlo%Z.leb_gt].
    destruct (Z.leb_spec (Z.of_nat (length ds) + e) 0) as [Hneg|Hposd].
    + (* 0.000ddd *)
      rewrite !sapp_assoc.
      change ("0." +:+ ?s) with (String "0"%char (String "."%char s)).
      rewrite run_cons. change "0"%char with (pretty_N_char 0) at 1.
      rewrite (Hph 0) by done. rewrite run_cons.
      rewrite step_int_point.
      unfold zeros. rewrite run_frac_digits by apply is_digit_zeros.
      rewrite digits_val_zeros, N.mul_0_l.
      destruct Hint as [Hall _].
      rewrite run_frac_digits by done. rewrite Hval.
      rewrite run_frac_end; [|done|destruct ds; [done|simpl; lia]].
      do 4 f_equal.
      rewrite <- (float_of_spec neg m e 0) by done.
      rewrite N.mul_1_r. f_equal. rewrite length_replicate. lia.
    + destruct (Z.leb_spec (Z.of_nat (length ds)) (Z.of_nat (length ds) + e))
        as [Hwhole|Hfrac].
      * (* ddd000.0 *)
        rewrite <- sapp_assoc. unfold zeros. rewrite <- chars_app.
        rewrite sapp_assoc.
        rewrite (run_int_part d k neg ph) ; [|done|].
        2:{ destruct Hint as [Hall Hhead]. split.
            - apply Forall_app. split; [done|apply is_digit_zeros].
            - destruct (N.eq_dec m 0) as [Hm|Hm].
              + destruct (Hm0 Hm) as [-> ->]. by left.
              + right. destruct (Hpos ltac:(lia)) as (c1 & tl & n1 & -> & ? & ?).
                by eexists _, _, _. }
        rewrite digits_val_app, Hval, digits_val_zeros.
        change (".0" +:+ ?s) with (String "."%char (String "0"%char s)).
        rewrite run_cons, step_int_point.
        rewrite run_cons, (step_frac_digit _ _ _ _ _ _ 0) by done.
        rewrite run_frac_end by done.
        do 4 f_equal.
        rewrite <- (float_of_spec neg m e (S (Z.to_nat e))) by done.
        f_equal.
        -- rewrite Nat2N.inj_succ, N.pow_succ_r'.
           replace (Z.to_nat (Z.of_nat (length ds) + e - Z.of_nat (length ds)))
             with (Z.to_nat e) by lia.
           lia.
        -- simpl length. lia.
      * (* dd.ddd *)
        destruct Hint as [Hall _].
        assert (Hm : 0 < m).
        { apply N.neq_0_lt_0. intros Hm. destruct (Hm0 Hm) as [-> ->].
          simpl in *. lia. }
        set (j := Z.to_nat (Z.of_nat (length ds) + e)).
        assert (Hj : (0 < j < length ds)%nat) by lia.
        rewrite sapp_assoc.
        rewrite (run_int_part d k neg ph); [|done|].
        2:{ split; [by apply Forall_take|]. right.
            destruct (Hpos Hm) as (c1 & tl & n1 & -> & ? & ?).
            destruct j as [|j']; [lia|]. simpl. by eexists _, _, _. }
        rewrite sapp_assoc.
        change ("." +:+ ?s) with (String "."%char s).
        rewrite run_cons.
        rewrite step_int_point.
        rewrite run_frac_digits by (by apply Forall_drop).
        rewrite <- digits_val_app, take_drop, Hval.
        rewrite run_frac_end; [|done|rewrite length_drop; lia].
        do 4 f_equal.
        rewrite <- (float_of_spec neg m e 0) by done.
        rewrite N.mul_1_r. f_equal. rewrite length_drop. lia.
Qed.

Lemma num_start_val d k : num_start d k false (BeforeVal k).
Proof.
  intros n Hn.
  assert (Hcases : Forall (λ x, step (d, BeforeVal k) (pretty_N_char x)
                                = (d, InNum k false (Some x)))
                     (N.of_nat <$> seq 0 10)).
  { by repeat constructor. }
  rewrite Forall_forall in Hcases. apply Hcases.
  apply list_elem_of_fmap. exists (N.to_nat n). split; [lia|].
  apply elem_of_seq. lia.
Qed.

Lemma num_start_neg d k : num_start d k true (InNum k true None).
Proof. intros n Hn. unfold step; simpl. by rewrite digit_val_char. Qed.

Lemma run_encode_str wrap d s rest :
  str_phase wrap → text s = true →
  ∀ m, (∀ chars, step (d, wrap (StrBuf chars None Plain)) dquote = m (rev chars)) →
  run (d, wrap sb_init) (escape_chars s +:+ String dquote rest)
  = run (m s) rest.
Proof.
  intros Hw Hs m Hm. unfold sb_init.
  rewrite run_escape_chars by done. simpl.
  by rewrite Hm, rev_app_distr, rev_involutive.
Qed.

Lemma run_encode_value d k v c rest :
  text_value v = true → delim c →
  run (d, BeforeVal k) (encode_value v +:+ String c rest)
  = run (after_val (dict_set d k v) c) rest.
Proof.
  intros Hv Hc. destruct v as [|z|s|b|f]; simpl.
  - done.
  - assert (Hend : ∀ neg a,
      run (d, InNum k neg (Some a)) (String c rest)
      = run (after_val (dict_set d k (VInt (int_of neg a))) c) rest).
    { intros neg a. simpl. f_equal. unfold step; simpl.
      by destruct Hc as [-> | ->], a. }
    destruct z as [|p|p].
    + change (pretty 0%Z) with "0". simpl. apply (Hend false 0).
    + change (pretty (Z.pos p)) with (pretty_N_go (N.pos p) EmptyString).
      rewrite pretty_N_go_app. simpl.
      rewrite (run_digits d k false); [apply (Hend false (N.pos p))| |lia].
      apply num_start_val.
    + change (pretty (Z.neg p)) with ("-" +:+ pretty_N_go (N.pos p) EmptyString).
      rewrite sapp_assoc, pretty_N_go_app. simpl.
      change (step (d, BeforeVal k) "-"%char) with (d, InNum k true None).
      rewrite (run_digits d k true); [apply (Hend true (N.pos p))| |lia].
      apply num_start_neg.
  - unfold encode_str. simpl.
    change (step (d, BeforeVal k) dquote) with (d, InStr k sb_init).
    rewrite sapp_assoc. simpl.
    rewrite (run_encode_str (InStr k) d s _ (str_phase_val k) Hv
               (λ s', (dict_set d k (VStr s'), AfterVal))); [done|].
    intros chars. reflexivity.
  - by destruct b.
  - destruct f as [|[]|[] m e]; try done.
    + change (float_repr (FFin true m e)) with ("-" +:+ finite_repr m e).
      rewrite sapp_assoc. change ("-" +:+ ?s) with (String "-"%char s).
      rewrite run_cons.
      change (step (d, BeforeVal k) "-"%char) with (d, InNum k true None).
      apply run_finite; [apply num_start_neg|done..].
    + change (float_repr (FFin false m e)) with (finite_repr m e).
      apply run_finite; [apply num_start_val|done..].
Qed.

Lemma run_encode_item d ph kv c rest :
  step (d, ph) dquote = (d, InKey sb_init) →
  text kv.1 = true → text_value kv.2 = true → delim c →
  run (d, ph) (encode_item kv +:+ String c rest)
  = run (after_val (dict_set d kv.1 kv.2) c) rest.
Proof.
  intros Hph Hk Hv Hc. destruct kv as [k v]; simpl in *.
  unfold encode_item, encode_str; simpl. rewrite Hph.
  rewrite !sapp_assoc. simpl.
  rewrite (run_encode_str InKey d k _ str_phase_key Hk (λ k', (d, AfterKey k')));
    [|reflexivity].
  simpl.
  change (step (step (d, AfterKey k) ":"%char) " "%char) with (d, BeforeVal k).
  by apply run_encode_value.
Qed.

Lemma encode_items_cons kv kv' d :
  encode_items (kv :: kv' :: d)
  = encode_item kv +:+ String ","%char (String " "%char (encode_items (kv' :: d))).
Proof. done. Qed.

Lemma run_encode_items acc ph d rest :
  ph = Open ∨ ph = AfterComma → d ≠ [] →
  forallb (λ kv, text kv.1 && text_value kv.2) d = true →
  run (acc, ph) (encode_items d +:+ String "}"%char rest)
  = run (dict_fill acc d, Done) rest.
Proof.
  intros Hph Hne. revert acc ph Hph.
  induction d as [|kv d IH]; intros acc ph Hph Hd; [done|].
  apply andb_true_iff in Hd as [Hkv Hd].
  apply andb_true_iff in Hkv as [Hk Hv].
  assert (Hq : step (acc, ph) dquote = (acc, InKey sb_init))
    by (by destruct Hph as [-> | ->]).
  destruct d as [|kv' d].
  - change (encode_items [kv]) with (encode_item kv).
    rewrite run_encode_item; try done. by right.
  - rewrite encode_items_cons, sapp_assoc.
    change (String ","%char (String " "%char (encode_items (kv' :: d)))
            +:+ String "}"%char rest)
      with (String ","%char (String " "%char (encode_items (kv' :: d)
            +:+ String "}"%char rest))).
    rewrite run_encode_item; [|done..|by left].
    change (after_val (dict_set acc kv.1 kv.2) ","%char)
      with (dict_set acc kv.1 kv.2, AfterComma).
    rewrite run_cons.
    change (step (dict_set acc kv.1 kv.2, AfterComma) " "%char)
      with (dict_set acc kv.1 kv.2, AfterComma).
    rewrite IH; [done|done|by right|exact Hd].
Qed.

Lemma dict_set_fresh d k v : k ∉ d.*1 → dict_set d k v = d ++ [(k, v)].
Proof.
  induction d as [|[k' v'] d IH]; intros Hk; simpl; [done|].
  rewrite fmap_cons, not_elem_of_cons in Hk. destruct Hk as [Hne Hk].
  simpl in Hne.
  destruct (decide (k' = k)) as [->|_]; [done|]. by rewrite IH.
Qed.

Lemma dict_fill_fresh acc d : NoDup (acc.*1 ++ d.*1) → dict_fill acc d = acc ++ d.
Proof.
  revert acc. induction d as [|[k v] d IH]; intros acc Hnd; simpl.
  - by rewrite (right_id_L [] (++)).
  - rewrite fmap_cons in Hnd. simpl in Hnd.
    pose proof Hnd as (Hacc & Hdisj & Hd)%NoDup_app.
    rewrite dict_set_fresh by (intros Hin; apply (Hdisj _ Hin); left).
    fold (dict_fill (acc ++ [(k, v)]) d). rewrite IH.
    + by rewrite <- (assoc_L (++)).
    + by rewrite fmap_app, <- (assoc_L (++)).
Qed.

(** Decoding the text written for a dict gives the dict back. *)
Lemma loads_dumps d : flat_record d = true → loads (dumps d) = Returned d.
Proof.
  intros Hd. unfold flat_record in Hd.
  apply andb_true_iff in Hd as [Hnd Hd]. apply bool_decide_eq_true in Hnd.
  unfold loads, dumps.
  change ("{" +:+ encode_items d +:+ "}")
    with (String "{"%char (encode_items d +:+ String "}"%char EmptyString)).
  rewrite run_cons. change (step ([], Start) "{"%char) with (([] : record), Open).
  destruct d as [|kv d]; [done|].
  rewrite (run_encode_items [] Open); [|by left|done|done].
  change (run (dict_fill [] (kv :: d), Done) EmptyString)
    with (dict_fill [] (kv :: d), Done).
  by rewrite dict_fill_fresh.
Qed.

(** Everything [dumps] writes is ASCII, so the bytes stored in Redis
    decode to the very same text. *)
Lemma ascii_text_app s t : ascii_text (s +:+ t) = ascii_text s && ascii_text t.
Proof.
  unfold ascii_text. induction s as [|c s IH]; simpl; [done|].
  by rewrite IH, andb_assoc.
Qed.

Lemma ascii_text_cons c s :
  ascii_text (String c s) = (N_of_ascii c <? 128) && ascii_text s.
Proof. done. Qed.

Lemma ascii_hex_digit n : n < 16 → (N_of_ascii (hex_digit n) <? 128) = true.
Proof.
  intros Hn.
  assert (Hcases : Forall (λ x, (N_of_ascii (hex_digit x) <? 128) = true)
                     (N.of_nat <$> seq 0 16)).
  { by repeat constructor. }
  rewrite Forall_forall in Hcases. apply Hcases.
  apply list_elem_of_fmap. exists (N.to_nat n). split; [lia|].
  apply elem_of_seq. lia.
Qed.

Lemma ascii_uescape n : ascii_text (uescape n) = true.
Proof.
  unfold uescape, hex4. rewrite !ascii_text_cons.
  rewrite !ascii_hex_digit by (by apply N.mod_lt). done.
Qed.

Lemma ascii_escape_chars s : ascii_text (escape_chars s) = true.
Proof.
  induction s as [|c s IH]; simpl; [done|].
  rewrite ascii_text_app, IH, andb_true_r. unfold escape_char.
  repeat (destruct (N.eqb _ _); [done|]).
  destruct ((32 <=? c) && (c <=? 126)) eqn:Hprint.
  - rewrite ascii_text_cons, andb_true_r.
    apply andb_true_iff in Hprint as [?%N.leb_le ?%N.leb_le].
    rewrite N_ascii_embedding by lia. apply N.ltb_lt. lia.
  - destruct (c <? 65536); [apply ascii_uescape|].
    by rewrite ascii_text_app, !ascii_uescape.
Qed.

Lemma ascii_encode_str s : ascii_text (encode_str s) = true.
Proof.
  unfold encode_str.
  by rewrite ascii_text_cons, ascii_text_app, ascii_escape_chars.
Qed.

Lemma ascii_pretty_N_go x s : ascii_text s = true → ascii_text (pretty_N_go x s) = true.
Proof.
  revert s. induction (N.lt_wf_0 x) as [x _ IH]; intros s Hs.
  destruct (N.eq_dec x 0) as [->|Hx]; [by rewrite pretty_N_go_0|].
  rewrite pretty_N_go_step by lia. apply IH; [apply N.div_lt; lia|].
  rewrite ascii_text_cons, Hs, andb_true_r.
  unfold pretty_N_char. by repeat case_match.
Qed.

Lemma ascii_digit c : is_digit c → (N_of_ascii c <? 128) = true.
Proof.
  intros [n Hc]. unfold digit_val in Hc. cbv zeta in Hc.
  destruct ((48 <=? N_of_ascii c) && (N_of_ascii c <=? 57)) eqn:Hr; [|done].
  apply andb_true_iff in Hr as [_ Hhi%N.leb_le]. apply N.ltb_lt. lia.
Qed.

Lemma ascii_digits ds :
  Forall is_digit ds → ascii_text (string_of_list_ascii ds) = true.
Proof.
  induction 1 as [|c ds Hc _ IH]; [done|].
  simpl. by rewrite ascii_text_cons, IH, ascii_digit.
Qed.

Lemma ascii_pretty_N (m : N) : ascii_text (pretty m) = true.
Proof.
  rewrite <- (string_of_list_ascii_of_string (pretty m)).
  apply ascii_digits. by destruct (digit_chars_spec m) as ([? _] & _).
Qed.

Lemma ascii_exp_text x : ascii_text (exp_text x) = true.
Proof.
  unfold exp_text. rewrite !ascii_text_app, ascii_pretty_N.
  by destruct (x <? 0)%Z, (Z.abs x <? 10)%Z.
Qed.

Lemma ascii_finite_repr m e : ascii_text (finite_repr m e) = true.
Proof.
  unfold finite_repr. cbv zeta.
  destruct (digit_chars_spec m) as ([Hall _] & _).
  assert (Hz : ∀ z, ascii_text (zeros z) = true).
  { intros z. apply ascii_digits, is_digit_zeros. }
  destruct (_ || _).
  - destruct (digit_chars m) as [|d1 [|d2 rest]]; [done|..].
    + apply Forall_cons in Hall as [H1 _].
      by rewrite ascii_text_cons, ascii_text_app, ascii_exp_text, ascii_digit.
    + apply Forall_cons in Hall as [H1 H2].
      rewrite ascii_text_cons, !ascii_text_app, ascii_exp_text, ascii_digit by done.
      by rewrite ascii_digits.
  - destruct (_ <=? _)%Z.
    + by rewrite !ascii_text_app, Hz, ascii_digits.
    + destruct (_ <=? _)%Z.
      * by rewrite !ascii_text_app, Hz, ascii_digits.
      * rewrite !ascii_text_app, !ascii_digits; [done|..].
        -- by apply Forall_drop.
        -- by apply Forall_take.
Qed.

Lemma ascii_encode_value v : ascii_text (encode_value v) = true.
Proof.
  destruct v as [|z|s|[]|f]; simpl; [done| |apply ascii_encode_str|done|done|].
  - destruct z as [|p|p]; [done|by apply ascii_pretty_N_go|].
    change (pretty (Z.neg p)) with (String "-"%char (pretty_N_go (N.pos p) EmptyString)).
    rewrite ascii_text_cons. by rewrite ascii_pretty_N_go.
  - destruct f as [|[]|neg m e]; try done. simpl.
    rewrite ascii_text_app, ascii_finite_repr. by destruct neg.
Qed.

Lemma ascii_encode_item kv : ascii_text (encode_item kv) = true.
Proof.
  unfold encode_item.
  by rewrite !ascii_text_app, ascii_encode_str, ascii_encode_value.
Qed.

Lemma ascii_encode_items d : ascii_text (encode_items d) = true.
Proof.
  induction d as [|kv [|kv' d] IH]; [done|apply ascii_encode_item|].
  rewrite encode_items_cons, ascii_text_app, ascii_encode_item.
  by rewrite !ascii_text_cons, IH.
Qed.

Lemma ascii_dumps d : ascii_text (dumps d) = true.
Proof.
  unfold dumps. by rewrite !ascii_text_app, ascii_encode_items.
Qed.

End JsonFacts.

(** * Facts about the store and the three methods *)

Local Close Scope N_scope.

Lemma bind_unfold {A B} (m : M A) (f : A → M B) w :
  (m ≫= f) w
  = match m w with
    | (Returned a, w') => f a w'
    | (Raised e, w') => (Raised e, w')
    end.
Proof. done. Qed.

Global Instance record_key_inj : Inj (=) (=) record_key.
Proof.
  intros i j Hij. unfold record_key in Hij.
  apply (inj (String.app "record_")) in Hij. by apply (inj pretty) in Hij.
Qed.

Lemma redis_command_cases {A} (cmd : gmap string string → A * gmap string string) w :
  (∃ fs, faults w = true :: fs
         ∧ redis_command cmd w = (Raised RedisError, World (db w) fs))
  ∨ (redis_command cmd w
       = (Returned (cmd (db w)).1, World (cmd (db w)).2 (tail (faults w)))
     ∧ (reliable w = true → reliable (World (cmd (db w)).2 (tail (faults w))) = true)).
Proof.
  unfold redis_command, reliable. destruct (faults w) as [|[] fs]; simpl; eauto.
Qed.

Lemma redis_command_reliable {A} (cmd : gmap string string → A * gmap string string) w :
  reliable w = true →
  redis_command cmd w
  = (Returned (cmd (db w)).1, World (cmd (db w)).2 (tail (faults w)))
  ∧ reliable (World (cmd (db w)).2 (tail (faults w))) = true.
Proof.
  unfold redis_command, reliable. by destruct (faults w) as [|[] fs].
Qed.

Lemma stored_items_cons idx r data :
  stored_items idx (r :: data)
  = (record_key idx, Json.dumps r) :: stored_items (S idx) data.
Proof.
  unfold stored_items. simpl. rewrite Nat.add_0_r. f_equal.
  apply imap_ext. intros i x _. simpl. do 2 f_equal. lia.
Qed.

Lemma stored_items_keys idx data :
  (stored_items idx data).*1 = record_key <$> seq idx (length data).
Proof.
  revert idx. induction data as [|r data IH]; intros idx; [done|].
  rewrite stored_items_cons. simpl. by rewrite IH.
Qed.

Lemma stored_items_NoDup idx data : NoDup (stored_items idx data).*1.
Proof.
  rewrite stored_items_keys. apply (NoDup_fmap_2 _), NoDup_seq.
Qed.

Lemma stored_items_fresh idx idx' data :
  (idx' < idx)%nat →
  (list_to_map (stored_items idx data) : gmap string string) !! record_key idx' = None.
Proof.
  intros Hlt. apply not_elem_of_list_to_map_1. rewrite stored_items_keys.
  intros (j & Hj & Hin)%list_elem_of_fmap. apply (inj _) in Hj as <-.
  apply elem_of_seq in Hin. lia.
Qed.

(** The keyspace after a run of the upload loop that did not raise. *)
Lemma upload_records_db data idx w u w' :
  upload_records idx data w = (Returned u, w') →
  db w' = list_to_map (stored_items idx data) ∪ db w.
Proof.
  revert idx w. induction data as [|r data IH]; intros idx w Hrun.
  - injection Hrun as _ <-. simpl. by rewrite (left_id_L ∅ (∪)).
  - simpl in Hrun. rewrite bind_unfold in Hrun. unfold redis_set in Hrun.
    destruct (redis_command_cases (λ s, (tt, <[record_key idx:=Json.dumps r]> s)) w)
      as [(fs & _ & Hcmd)|[Hcmd _]]; rewrite Hcmd in Hrun; [done|].
    apply IH in Hrun. rewrite Hrun, stored_items_cons. simpl.
    rewrite <- insert_union_r by (apply stored_items_fresh; lia).
    by rewrite insert_union_l.
Qed.

Lemma upload_records_reliable data idx w :
  reliable w = true →
  (upload_records idx data w).1 = Returned tt
  ∧ reliable (upload_records idx data w).2 = true.
Proof.
  revert idx w. induction data as [|r data IH]; intros idx w Hw; [done|].
  simpl. rewrite bind_unfold. unfold redis_set.
  destruct (redis_command_reliable (λ s, (tt, <[record_key idx:=Json.dumps r]> s)) w Hw)
    as [-> Hw'].
  by apply IH.
Qed.

Lemma decode_item_dumps r :
  Json.flat_record r = true → decode_item (Json.dumps r) = Returned r.
Proof.
  intros Hr. unfold decode_item, utf8_decode.
  rewrite JsonFacts.ascii_dumps. by apply JsonFacts.loads_dumps.
Qed.

Lemma csv_record_flat d : csv_record d = true → Json.flat_record d = true.
Proof. unfold csv_record. by intros [? _]%andb_true_iff. Qed.

Lemma dict_get_NoDup (d : record) k v :
  NoDup d.*1 → (k, v) ∈ d → dict_get d k = Some v.
Proof.
  induction d as [|[k' v'] d IH]; intros Hnd Hin; [by apply elem_of_nil in Hin|].
  rewrite fmap_cons in Hnd. apply NoDup_cons in Hnd as [Hk' Hnd]. simpl in *.
  apply elem_of_cons in Hin as [[= -> ->]|Hin].
  - by rewrite decide_True.
  - rewrite decide_False; [by apply IH|].
    intros ->. apply Hk'. apply list_elem_of_fmap. by exists (k, v).
Qed.

Lemma stored_lookup data i r :
  data !! i = Some r →
  (list_to_map (stored_items 0 data) : gmap string string) !! record_key i
  = Some (Json.dumps r).
Proof.
  intros Hi. apply elem_of_list_to_map_1; [apply stored_items_NoDup|].
  unfold stored_items.
  by apply (elem_of_lookup_imap_2 (λ i r, (record_key (0 + i), Json.dumps r))).
Qed.

Lemma stored_size data :
  size (list_to_map (stored_items 0 data) : gmap string string) = length data.
Proof.
  rewrite <- length_map_to_list, map_to_list_to_map by apply stored_items_NoDup.
  unfold stored_items. by rewrite length_imap.
Qed.

Lemma stored_dom data :
  dom (list_to_map (stored_items 0 data) : gmap string string)
  = list_to_set (record_key <$> seq 0 (length data)).
Proof. by rewrite dom_list_to_map_L, stored_items_keys. Qed.

Section Facts.

Variable read_records : string → outcome (list record).
Variable key_order : gmap string string → list string.

(** KEYS lists every key of the keyspace once, in an order of the
    server's choosing. *)
Hypothesis key_order_keys : ∀ m, key_order m ≡ₚ (map_to_list m).*1.

Lemma key_order_length m : length (key_order m) = size m.
Proof. by rewrite key_order_keys, length_fmap, length_map_to_list. Qed.

Lemma key_order_elem m k : k ∈ key_order m ↔ is_Some (m !! k).
Proof.
  rewrite key_order_keys. split.
  - intros ([k' v] & -> & Hin)%list_elem_of_fmap.
    apply elem_of_map_to_list in Hin. by exists v.
  - intros [v Hv]. apply list_elem_of_fmap. exists (k, v).
    split; [done|]. by apply elem_of_map_to_list.
Qed.

Lemma redis_flushall_cases w :
  (∃ fs, faults w = true :: fs
         ∧ redis_flushall w = (Raised RedisError, World (db w) fs))
  ∨ redis_flushall w = (Returned tt, World ∅ (tail (faults w))).
Proof.
  unfold redis_flushall.
  destruct (redis_command_cases (λ _ : gmap string string, (tt, ∅ : gmap string string)) w)
    as [?|[? _]]; eauto.
Qed.

Lemma upload_unfold csv_path w :
  upload_csv_to_redis read_records csv_path w
  = match redis_flushall w with
    | (Returned _, w1) =>
        match read_records csv_path with
        | Returned data =>
            match upload_records 0 data w1 with
            | (Returned _, w2) => (Returned true, w2)
            | (Raised _, w2) => (Returned false, w2)
            end
        | Raised _ => (Returned false, w1)
        end
    | (Raised e, w1) => (Raised e, w1)
    end.
Proof.
  unfold upload_csv_to_redis. rewrite bind_unfold.
  destruct (redis_flushall w) as [[[]|e] w1]; [|done].
  unfold try_except. rewrite bind_unfold. unfold lift.
  destruct (read_records csv_path) as [data|e]; [|done].
  rewrite bind_unfold. by destruct (upload_records 0 data w1) as [[[]|e] w2].
Qed.

(** When the load returns [True], the source was read and the keyspace
    holds exactly the batch. *)
Lemma upload_true csv_path w :
  (upload_csv_to_redis read_records csv_path w).1 = Returned true →
  ∃ data, read_records csv_path = Returned data
          ∧ db (upload_csv_to_redis read_records csv_path w).2
            = list_to_map (stored_items 0 data).
Proof.
  rewrite upload_unfold.
  destruct (redis_flushall_cases w) as [(fs & _ & ->) | ->]; [done|].
  destruct (read_records csv_path) as [data|e]; [|done].
  destruct (upload_records 0 data _) as [[[]|e] w2] eqn:Hrun; [|done].
  intros _. exists data. split; [done|].
  apply upload_records_db in Hrun. simpl in *.
  by rewrite Hrun, (right_id_L ∅ (∪)).
Qed.

(** On a server that does not fail, the load returns [True] exactly when
    the source can be read, and what it leaves behind does not depend on
    what the keyspace held before. *)
Lemma upload_reliable csv_path w :
  reliable w = true →
  reliable (upload_csv_to_redis read_records csv_path w).2 = true
  ∧ match read_records csv_path with
    | Returned data =>
        (upload_csv_to_redis read_records csv_path w).1 = Returned true
        ∧ db (upload_csv_to_redis read_records csv_path w).2
          = list_to_map (stored_items 0 data)
    | Raised _ =>
        (upload_csv_to_redis read_records csv_path w).1 = Returned false
        ∧ db (upload_csv_to_redis read_records csv_path w).2 = ∅
    end.
Proof.
  intros Hw.
  pose proof (upload_true csv_path w) as Htrue. revert Htrue.
  rewrite upload_unfold. unfold redis_flushall.
  destruct (redis_command_reliable (λ _ : gmap string string, (tt, ∅ : gmap string string)) w Hw)
    as [-> Hw1].
  destruct (read_records csv_path) as [data|e]; [|done].
  destruct (upload_records_reliable data 0 _ Hw1) as [Hout Hrel].
  destruct (upload_records 0 data _) as [[[]|e] w2]; [|done].
  intros Htrue. destruct (Htrue eq_refl) as (data' & [= <-] & ?). done.
Qed.

(** C4. When [upload_csv_to_redis] returns [True] on a batch, the keyspace
    holds exactly [len(records)] items, its keys are [record_0] to
    [record_{len-1}], and the value under [record_i] is the JSON text of
    the [i]-th record, which decodes to that record. *)
Theorem upload_postcondition csv_path w data :
  read_records csv_path = Returned data →
  (upload_csv_to_redis read_records csv_path w).1 = Returned true →
  size (db (upload_csv_to_redis read_records csv_path w).2) = length data
  ∧ dom (db (upload_csv_to_redis read_records csv_path w).2)
    = list_to_set (record_key <$> seq 0 (length data))
  ∧ ∀ i r, data !! i = Some r →
      db (upload_csv_to_redis read_records csv_path w).2 !! record_key i
      = Some (Json.dumps r)
      ∧ (csv_record r = true → decode_item (Json.dumps r) = Returned r).
Proof.
  intros Hread Htrue.
  destruct (upload_true csv_path w Htrue) as (data' & Hread' & ->).
  rewrite Hread in Hread'. injection Hread' as <-.
  split_and!; [apply stored_size|apply stored_dom|].
  intros i r Hi. split; [by apply stored_lookup|].
  intros Hr%csv_record_flat. by apply decode_item_dumps.
Qed.

(** C9. On a server that does not fail, loading the same source twice in
    a row gives the same result and leaves the same keyspace as loading it
    once. *)
Theorem upload_idempotent csv_path w :
  reliable w = true →
  (upload_csv_to_redis read_records csv_path
     (upload_csv_to_redis read_records csv_path w).2).1
  = (upload_csv_to_redis read_records csv_path w).1
  ∧ db (upload_csv_to_redis read_records csv_path
          (upload_csv_to_redis read_records csv_path w).2).2
    = db (upload_csv_to_redis read_records csv_path w).2.
Proof.
  intros Hw.
  destruct (upload_reliable csv_path w Hw) as [Hw1 H1].
  destruct (upload_reliable csv_path _ Hw1) as [_ H2].
  destruct (read_records csv_path) as [data|e];
    destruct H1 as [-> ->], H2 as [-> ->]; done.
Qed.

(** C10. The keyspace is flushed before the source is read: if FLUSHALL
    goes through and reading the source fails, the load returns [False] and
    leaves the keyspace empty, whatever it held before. *)
Theorem upload_unreadable_source csv_path w e :
  read_records csv_path = Raised e →
  hd false (faults w) = false →
  (upload_csv_to_redis read_records csv_path w).1 = Returned false
  ∧ db (upload_csv_to_redis read_records csv_path w).2 = ∅.
Proof.
  intros Hread Hflush. rewrite upload_unfold, Hread.
  destruct (redis_flushall_cases w) as [(fs & Hfs & _) | ->]; [|done].
  by rewrite Hfs in Hflush.
Qed.

(** C2. A failure of FLUSHALL is raised to the caller of
    [upload_csv_to_redis]: the call stands before the [try] block. *)
Theorem upload_flushall_failure_raises csv_path m fs :
  upload_csv_to_redis read_records csv_path (World m (true :: fs))
  = (Raised RedisError, World m fs).
Proof. by rewrite upload_unfold. Qed.

(** It is the only way for the load to raise. *)
Lemma upload_raised csv_path w e w' :
  upload_csv_to_redis read_records csv_path w = (Raised e, w') →
  e = RedisError ∧ hd false (faults w) = true ∧ db w' = db w.
Proof.
  rewrite upload_unfold.
  destruct (redis_flushall_cases w) as [(fs & Hfs & ->) | ->].
  - intros [= <- <-]. by rewrite Hfs.
  - destruct (read_records csv_path) as [data|e']; [|done].
    by destruct (upload_records 0 data _) as [[[]|e'] w2].
Qed.

Section ScanFacts.

Context {A : Type} (decode : string → outcome A).

Lemma redis_get_cases key w :
  (∃ fs, faults w = true :: fs
         ∧ redis_get key w = (Raised RedisError, World (db w) fs))
  ∨ (redis_get key w = (Returned (db w !! key), World (db w) (tail (faults w)))
     ∧ (reliable w = true → reliable (World (db w) (tail (faults w))) = true)).
Proof. exact (redis_command_cases (λ s, (s !! key, s)) w). Qed.

Lemma redis_keys_cases w :
  (∃ fs, faults w = true :: fs
         ∧ redis_keys key_order w = (Raised RedisError, World (db w) fs))
  ∨ (redis_keys key_order w
       = (Returned (key_order (db w)), World (db w) (tail (faults w)))
     ∧ (reliable w = true → reliable (World (db w) (tail (faults w))) = true)).
Proof. exact (redis_command_cases (λ s, (key_order s, s)) w). Qed.

(** A fetch that returns has appended one row per key. *)
Lemma fetch_length keys data w rows w' :
  (∀ k, k ∈ keys → is_Some (db w !! k)) →
  fetch decode keys data w = (Returned rows, w') →
  length rows = (length data + length keys)%nat.
Proof.
  revert data w. induction keys as [|key keys IH]; intros data w Hin Hrun.
  - injection Hrun as <- _. simpl. lia.
  - simpl in Hrun. rewrite bind_unfold in Hrun.
    destruct (redis_get_cases key w) as [(fs & _ & Hget)|[Hget _]];
      rewrite Hget in Hrun; [done|].
    destruct (Hin key) as [v Hv]; [left|]. rewrite Hv in Hrun.
    rewrite bind_unfold in Hrun. unfold lift in Hrun.
    destruct (decode v) as [a|e]; [|done].
    apply IH in Hrun.
    + rewrite Hrun, length_app. simpl. lia.
    + intros k Hk. apply Hin. by right.
Qed.

(** On a server that does not fail, over keys whose values all decode,
    the fetch returns the decoded values in the order of the keys. *)
Lemma fetch_reliable (row : string → A) keys data w :
  reliable w = true →
  (∀ k, k ∈ keys → ∃ v, db w !! k = Some v ∧ decode v = Returned (row k)) →
  (fetch decode keys data w).1 = Returned (data ++ (row <$> keys)).
Proof.
  revert data w. induction keys as [|key keys IH]; intros data w Hw Hin.
  - simpl. by rewrite (right_id_L [] (++)).
  - simpl. rewrite bind_unfold.
    destruct (redis_get_cases key w) as [(fs & Hfs & _)|[-> Hw']].
    { unfold reliable in Hw. by rewrite Hfs in Hw. }
    destruct (Hin key) as (v & -> & Hv); [left|].
    rewrite bind_unfold. unfold lift. rewrite Hv.
    rewrite IH; [by rewrite <- (assoc_L (++))|by apply Hw'|].
    intros k Hk. apply Hin. by right.
Qed.

Lemma recent_keys_length limit keys :
  length (recent_keys limit keys) = (limit `min` length keys)%nat.
Proof.
  unfold recent_keys. by rewrite length_take, merge_sort_Permutation.
Qed.

Lemma recent_keys_elem limit keys k : k ∈ recent_keys limit keys → k ∈ keys.
Proof.
  unfold recent_keys. intros Hk%subseteq_take.
  by rewrite merge_sort_Permutation in Hk.
Qed.

Lemma fetch_returns keys data w :
  reliable w = true →
  (∀ k, k ∈ keys → ∃ v a, db w !! k = Some v ∧ decode v = Returned a) →
  ∃ rows, (fetch decode keys data w).1 = Returned rows.
Proof.
  revert data w. induction keys as [|key keys IH]; intros data w Hw Hin.
  - by exists data.
  - simpl. rewrite bind_unfold.
    destruct (redis_get_cases key w) as [(fs & Hfs & _)|[-> Hw']].
    { unfold reliable in Hw. by rewrite Hfs in Hw. }
    destruct (Hin key) as (v & a & -> & Hv); [left|].
    rewrite bind_unfold. unfold lift. rewrite Hv.
    apply IH; [by apply Hw'|]. intros k Hk. apply Hin. by right.
Qed.

(** C8, for scans that succeed. A recent scan that returns rows returns
    at most [limit] of them, and exactly [min(limit, number of stored
    items)]; on a server that does not fail, over a keyspace whose values
    all decode, it does return. *)
Theorem scan_recent_count limit w :
  (∀ rows w', scan_recent key_order decode limit w = (Returned rows, w') →
     length rows ≤ limit ∧ length rows = limit `min` size (db w))
  ∧ (reliable w = true →
     (∀ k v, db w !! k = Some v → ∃ a, decode v = Returned a) →
     ∃ rows, (scan_recent key_order decode limit w).1 = Returned rows).
Proof.
  unfold scan_recent. split.
  - intros rows w' Hrun. rewrite bind_unfold in Hrun.
    destruct (redis_keys_cases w) as [(fs & _ & Hkeys)|[Hkeys _]];
      rewrite Hkeys in Hrun; [done|].
    apply fetch_length in Hrun.
    + simpl in Hrun. rewrite recent_keys_length, key_order_length in Hrun. lia.
    + intros k Hk%recent_keys_elem. by apply key_order_elem.
  - intros Hw Hdec. rewrite bind_unfold.
    destruct (redis_keys_cases w) as [(fs & Hfs & _)|[-> Hw']].
    { unfold reliable in Hw. by rewrite Hfs in Hw. }
    apply fetch_returns; [by apply Hw'|].
    intros k [v Hv]%recent_keys_elem%key_order_elem. simpl.
    destruct (Hdec k v Hv) as [a Ha]. eauto.
Qed.

Lemma scan_all_reliable (row : string → A) w :
  reliable w = true →
  (∀ k v, db w !! k = Some v → decode v = Returned (row k)) →
  (scan_all key_order decode w).1 = Returned (Some (row <$> key_order (db w))).
Proof.
  intros Hw Hdec. unfold scan_all, try_except. rewrite bind_unfold.
  destruct (redis_keys_cases w) as [(fs & Hfs & _)|[-> Hw1]].
  { unfold reliable in Hw. by rewrite Hfs in Hw. }
  specialize (Hw1 Hw). rewrite bind_unfold.
  destruct (redis_keys_cases (World (db w) (tail (faults w))))
    as [(fs & Hfs & _)|[-> Hw2]].
  { unfold reliable in Hw1. by rewrite Hfs in Hw1. }
  specialize (Hw2 Hw1). simpl db in *. rewrite bind_unfold.
  pose proof (fetch_reliable row (key_order (db w)) [] _ Hw2) as Hfetch.
  destruct (fetch decode _ _ _) as [o w3]. simpl in Hfetch.
  rewrite Hfetch.
  - by destruct (row <$> key_order (db w)).
  - intros k [v Hv]%key_order_elem. simpl. eauto.
Qed.

(** Whatever happens inside, a full scan returns to its caller. *)
Lemma scan_all_returns w : ∃ r w', scan_all key_order decode w = (Returned r, w').
Proof.
  unfold scan_all, try_except.
  destruct (mbind (M:=M) _ _ w) as [[r|e] w']; [eauto|].
  destruct e; eauto.
Qed.

End ScanFacts.

(** C7. On an empty keyspace and a server that does not fail,
    [redis_data_to_dataframe] returns the empty frame, not [None]. *)
Theorem scan_all_empty w :
  db w = ∅ → reliable w = true →
  (redis_data_to_dataframe key_order w).1 = Returned (Some []).
Proof.
  intros Hdb Hw. unfold redis_data_to_dataframe.
  rewrite (scan_all_reliable decode_item (λ _, []) w Hw).
  - assert (key_order (db w) = []) as ->; [|done].
    apply length_zero_iff_nil. by rewrite key_order_length, Hdb, map_size_empty.
  - intros k v. by rewrite Hdb, lookup_empty.
Qed.

Lemma row_of_key data i r :
  Json.flat_record r = true → data !! i = Some r →
  row_of data (record_key i) = r.
Proof.
  intros Hr Hi. unfold row_of.
  by rewrite (stored_lookup data i r Hi), decode_item_dumps.
Qed.

Lemma rows_of_stored data :
  Forall (λ r, Json.flat_record r = true) data →
  row_of data <$> (stored_items 0 data).*1 = data.
Proof.
  intros Hflat. rewrite stored_items_keys. apply list_eq. intros i.
  rewrite !list_lookup_fmap.
  destruct (data !! i) as [r|] eqn:Hi.
  - rewrite lookup_seq_lt by (by eapply lookup_lt_Some). simpl.
    f_equal. apply row_of_key; [|done].
    rewrite Forall_forall in Hflat. apply Hflat. by eapply list_elem_of_lookup_2.
  - apply lookup_ge_None in Hi. by rewrite lookup_seq_ge.
Qed.

(** C1. On a server that does not fail, loading [N] records as the loader
    reads them and then scanning returns [N] rows, which are the loaded
    records in some order: each row has the fields and the cells of the
    record it was written from. *)
Theorem load_then_scan csv_path w data :
  read_records csv_path = Returned data →
  Forall (λ r, csv_record r = true) data →
  reliable w = true →
  (upload_csv_to_redis read_records csv_path w).1 = Returned true
  ∧ ∃ rows,
      (redis_data_to_dataframe key_order
         (upload_csv_to_redis read_records csv_path w).2).1
      = Returned (Some rows)
      ∧ length rows = length data
      ∧ rows ≡ₚ data.
Proof.
  intros Hread Hcsv Hw.
  assert (Hflat : Forall (λ r, Json.flat_record r = true) data).
  { eapply Forall_impl; [exact Hcsv|]. intros r. apply csv_record_flat. }
  destruct (upload_reliable csv_path w Hw) as [Hw1 Hup].
  rewrite Hread in Hup. destruct Hup as [Htrue Hdb].
  split; [done|].
  exists (row_of data <$> key_order (list_to_map (stored_items 0 data))).
  assert (Hperm : row_of data <$> key_order (list_to_map (stored_items 0 data))
                  ≡ₚ data).
  { rewrite key_order_keys.
    rewrite map_to_list_to_map by apply stored_items_NoDup.
    by rewrite rows_of_stored. }
  split_and!; [|by rewrite Hperm|done].
  unfold redis_data_to_dataframe.
  rewrite (scan_all_reliable decode_item (row_of data) _ Hw1), Hdb; [done|].
  intros k v Hv. rewrite Hdb in Hv.
  apply elem_of_list_to_map_2 in Hv as Hin.
  apply list_elem_of_lookup in Hin as [i Hi].
  unfold stored_items in Hi. apply list_lookup_imap_Some in Hi as (r & Hr & [= -> ->]).
  rewrite (row_of_key data i r); [|rewrite Forall_forall in Hflat;
    apply Hflat; by eapply list_elem_of_lookup_2|done].
  apply decode_item_dumps.
  rewrite Forall_forall in Hflat. apply Hflat. by eapply list_elem_of_lookup_2.
Qed.

Global Instance key_ge_trans : Transitive key_ge.
Proof. intros a b c Hab Hbc. unfold key_ge in *. by etrans. Qed.

Global Instance key_ge_antisymm : AntiSymm (=) key_ge.
Proof. intros a b Hab Hba. unfold key_ge in *. by apply (anti_symm String.le). Qed.

Global Instance key_ge_total : Total key_ge.
Proof. intros a b. unfold key_ge. apply (total String.le). Qed.

(** C3. The keys of a recent scan are the first [limit] keys of the
    keyspace in descending lexicographic order; with [record_0] to
    [record_10] stored and limit 1 that is [record_9]. *)
Theorem recent_keys_order :
  (∀ limit keys,
     length (recent_keys limit keys) ≤ limit
     ∧ ∃ sorted, sorted ≡ₚ keys ∧ Sorted key_ge sorted
                 ∧ recent_keys limit keys = take limit sorted)
  ∧ (∀ m : gmap string string,
       dom m = list_to_set (record_key <$> seq 0 11) →
       recent_keys 1 (key_order m) = ["record_9"]).
Proof.
  split.
  - intros limit keys. split.
    + rewrite recent_keys_length. lia.
    + exists (merge_sort key_ge keys).
      split_and!; [apply merge_sort_Permutation|apply (Sorted_merge_sort _)|done].
  - intros m Hdom.
    assert (Hperm : key_order m ≡ₚ record_key <$> seq 0 11).
    { rewrite key_order_keys. apply NoDup_Permutation.
      - apply NoDup_fst_map_to_list.
      - apply (NoDup_fmap_2 _), NoDup_seq.
      - intros k. rewrite <- key_order_keys, key_order_elem, <- elem_of_dom, Hdom.
        apply elem_of_list_to_set. }
    unfold recent_keys.
    rewrite (Sorted_unique key_ge (merge_sort key_ge (key_order m))
               (merge_sort key_ge (record_key <$> seq 0 11))).
    + by vm_compute.
    + apply (Sorted_merge_sort _).
    + apply (Sorted_merge_sort _).
    + by rewrite !merge_sort_Permutation.
Qed.

Section HeatmapFacts.

Context {H : Type} (plot : list (pystr * list value) → outcome H).

(** Whatever happens inside, the heatmap method returns to its caller. *)
Lemma heatmap_returns w :
  ∃ r w', heatmap_using_recent_data key_order plot w = (Returned r, w').
Proof.
  unfold heatmap_using_recent_data, try_except.
  destruct (mbind (M:=M) _ _ w) as [[r|e] w']; eauto.
Qed.

End HeatmapFacts.

End Facts.

(** * Facts about the categorical encoding *)

Lemma pystr_leb_refl a : pystr_leb a a = true.
Proof.
  induction a as [|x a IH]; simpl; [done|].
  by rewrite N.eqb_refl, IH, orb_true_r.
Qed.

Lemma pystr_leb_total a b : pystr_leb a b = true ∨ pystr_leb b a = true.
Proof.
  revert b. induction a as [|x a IH]; intros [|y b]; simpl; auto.
  destruct (N.ltb_spec x y); [by left|].
  destruct (N.ltb_spec y x); [by right|].
  assert (x = y) as -> by lia. rewrite N.eqb_refl. simpl. apply IH.
Qed.

Lemma pystr_leb_antisym a b :
  pystr_leb a b = true → pystr_leb b a = true → a = b.
Proof.
  revert b. induction a as [|x a IH]; intros [|y b]; simpl; try done.
  destruct (N.ltb_spec x y), (N.ltb_spec y x); simpl; try lia.
  - destruct (N.eqb_spec y x); [lia|done].
  - destruct (N.eqb_spec x y); [lia|done].
  - destruct (N.eqb_spec x y) as [->|]; [|done].
    rewrite N.eqb_refl. simpl. intros Hab Hba. f_equal. by apply IH.
Qed.

Lemma pystr_leb_trans a b c :
  pystr_leb a b = true → pystr_leb b c = true → pystr_leb a c = true.
Proof.
  revert b c. induction a as [|x a IH]; intros [|y b] [|z c]; simpl; try done.
  destruct (N.ltb_spec x y), (N.ltb_spec y z), (N.ltb_spec x z);
    simpl; try done; try lia.
  - destruct (N.eqb_spec y z); [lia|done].
  - destruct (N.eqb_spec x y); [lia|done].
  - destruct (N.eqb_spec x y) as [->|]; [|done].
    destruct (N.eqb_spec y z) as [->|]; [|done].
    simpl. apply IH.
Qed.

Lemma sort_key_leb_total a b : sort_key_leb a b = true ∨ sort_key_leb b a = true.
Proof.
  destruct a as [| |x| |x], b as [| |y| |y]; simpl; auto.
  - destruct (Qlt_le_dec x y) as [Hlt|Hle].
    + left. by apply Qle_bool_iff, Qlt_le_weak.
    + right. by apply Qle_bool_iff.
  - apply pystr_leb_total.
Qed.

Lemma sort_key_leb_trans a b c :
  sort_key_leb a b = true → sort_key_leb b c = true → sort_key_leb a c = true.
Proof.
  destruct a as [| |x| |x], b as [| |y| |y], c as [| |z| |z]; simpl; try done.
  - rewrite !Qle_bool_iff. apply Qle_trans.
  - apply pystr_leb_trans.
Qed.

Global Instance value_le_total : Total value_le.
Proof.
  intros a b. unfold value_le, value_leb.
  destruct (sort_key_leb_total (sort_key_of a) (sort_key_of b)) as [-> | ->]; auto.
Qed.

Global Instance value_le_trans : Transitive value_le.
Proof.
  intros a b c. unfold value_le, value_leb.
  intros ?%Is_true_true ?%Is_true_true.
  apply Is_true_true. by eapply sort_key_leb_trans.
Qed.

Lemma value_le_refl v : value_le v v.
Proof. by destruct (total value_le v v). Qed.


(** Strings, and integers, count as one category only when they are
    equal. *)
Lemma same_value_str a b : same_value (VStr a) (VStr b) ↔ a = b.
Proof.
  unfold same_value, value_le, value_leb. simpl. split.
  - intros [?%Is_true_true ?%Is_true_true]. by apply pystr_leb_antisym.
  - intros ->. by rewrite pystr_leb_refl.
Qed.

Lemma same_value_int x y : same_value (VInt x) (VInt y) ↔ x = y.
Proof.
  unfold same_value, value_le, value_leb. simpl.
  unfold Qle_bool. simpl. rewrite !Z.mul_1_r. split.
  - intros [?%Is_true_true%Z.leb_le ?%Is_true_true%Z.leb_le]. lia.
  - intros ->. by rewrite Z.leb_refl.
Qed.





Lemma distinct_apart l : ForallOrdPairs (λ u v, ¬ same_value u v) (distinct l).
Proof.
  induction l as [|x l IH]; simpl; constructor.
  - apply Forall_forall. by intros u [? _]%list_elem_of_filter.
  - induction IH as [|u k Hu _ IHk]; [constructor|].
    destruct (decide (¬ same_value x u)).
    + rewrite filter_cons_True by done. constructor; [|done].
      apply Forall_forall. intros v [_ Hv]%list_elem_of_filter.
      rewrite Forall_forall in Hu. by apply Hu.
    + by rewrite filter_cons_False.
Qed.







Lemma length_cat_codes vs : length (cat_codes vs) = length vs.
Proof. unfold cat_codes. by rewrite length_map. Qed.


Lemma dict_get_set_eq r k v : dict_get (dict_set r k v) k = Some v.
Proof.
  induction r as [|[k' v'] r IH]; simpl.
  - by rewrite decide_True.
  - destruct (decide (k' = k)) as [->|Hne]; simpl.
    + by rewrite decide_True.
    + by rewrite decide_False.
Qed.

Lemma dict_get_set_ne r k k' v :
  k ≠ k' → dict_get (dict_set r k v) k' = dict_get r k'.
Proof.
  intros Hne. induction r as [|[k0 v0] r IH]; simpl.
  - by rewrite decide_False.
  - destruct (decide (k0 = k)) as [->|Hne0]; simpl.
    + by rewrite !decide_False.
    + by rewrite IH.
Qed.

Lemma column_inv df col vs :
  column df col = Returned vs → length vs = length df ∧ df ≠ [].
Proof.
  unfold column. destruct (has_column df col) eqn:Hhas; [|done].
  intros [= <-]. rewrite length_map. split; [done|]. by intros ->.
Qed.

Lemma column_set_eq df col ws :
  df ≠ [] → length ws = length df →
  column (set_column df col ws) col = Returned ws.
Proof.
  intros Hne Hlen. unfold column, set_column.
  assert (has_column (zip_with (λ r v, dict_set r col v) df ws) col = true) as ->.
  { destruct df as [|r df], ws as [|w ws]; try done. simpl.
    rewrite dict_get_set_eq. by rewrite bool_decide_eq_true_2. }
  f_equal. clear Hne. revert ws Hlen.
  induction df as [|r df IH]; intros [|w ws] Hlen; try done.
  simpl. rewrite dict_get_set_eq. simpl. f_equal. apply IH. by injection Hlen.
Qed.

Lemma column_set_ne df col col' ws :
  col ≠ col' → length ws = length df →
  column (set_column df col ws) col' = column df col'.
Proof.
  intros Hne Hlen. unfold column, set_column, has_column.
  assert (Hrows : (λ r, dict_get r col') <$> zip_with (λ r v, dict_set r col v) df ws
                  = (λ r, dict_get r col') <$> df).
  { revert ws Hlen. induction df as [|r df IH]; intros [|w ws] Hlen; try done.
    simpl. rewrite dict_get_set_ne by done. f_equal. apply IH. by injection Hlen. }
  assert (Hex : ∀ l : list record,
            existsb (λ r, bool_decide (is_Some (dict_get r col'))) l
            = existsb (λ o, bool_decide (is_Some o)) ((λ r, dict_get r col') <$> l)).
  { intros l. induction l as [|r l IH]; simpl; [done|]. by rewrite IH. }
  assert (Hmap : ∀ l : list record,
            map (λ r, default VNull (dict_get r col')) l
            = default VNull <$> ((λ r, dict_get r col') <$> l)).
  { intros l. by rewrite <- list_fmap_compose. }
  by rewrite !Hex, !Hmap, Hrows.
Qed.

(** Each listed column ends up holding the codes of its original cells;
    the other columns are left as they were. *)
Lemma encode_categorical_columns cols df df' :
  NoDup cols → encode_categorical cols df = Returned df' →
  (∀ col, col ∈ cols →
     ∃ vs, column df col = Returned vs
           ∧ column df' col = Returned (VInt <$> cat_codes vs))
  ∧ (∀ col, col ∉ cols → column df' col = column df col).
Proof.
  revert df. induction cols as [|c cols IH]; intros df Hnd Henc.
  - injection Henc as <-. split; [|done]. by intros col ?%elem_of_nil.
  - apply NoDup_cons in Hnd as [Hc Hnd]. simpl in Henc.
    destruct (column df c) as [vs|e] eqn:Hcol; [|done].
    destruct (column_inv _ _ _ Hcol) as [Hlen Hne].
    assert (Hlen' : length (map VInt (cat_codes vs)) = length df).
    { by rewrite length_map, length_cat_codes. }
    destruct (IH _ Hnd Henc) as [Hin Hout]. split.
    + intros col [->|Hcols]%elem_of_cons.
      * exists vs. split; [done|]. rewrite (Hout c Hc).
        by apply column_set_eq.
      * destruct (Hin col Hcols) as (vs' & Hvs' & Hcodes).
        exists vs'. split; [|done].
        rewrite column_set_ne in Hvs'; [done| |done].
        intros ->. done.
    + intros col [Hcc Hcols]%not_elem_of_cons.
      rewrite (Hout col Hcols). by apply column_set_ne.
Qed.

(** A cell is equal to itself, as a value, unless it is NaN. *)
Lemma py_eq_refl v : py_eq v v = negb (bool_decide (v = VFloat FNaN)).
Proof.
  assert (Hrefl : value_leb v v = true) by apply Is_true_true, value_le_refl.
  unfold py_eq. rewrite Hrefl. by destruct v as [| | | |[|[]|]].
Qed.

Lemma dict_eq_cells (d0 d : record) :
  (∀ kv, kv ∈ d → dict_get d0 kv.1 = Some kv.2) →
  forallb (λ kv, match dict_get d0 kv.1 with
                 | Some v => py_eq kv.2 v
                 | None => false
                 end) d
  = negb (has_nan d).
Proof.
  induction d as [|kv d IH]; intros Hget; [done|].
  simpl. rewrite (Hget kv) by left. rewrite py_eq_refl, negb_orb.
  f_equal. apply IH. intros kv' Hin. apply Hget. by right.
Qed.

Lemma dict_eq_refl d : NoDup d.*1 → dict_eq d d = negb (has_nan d).
Proof.
  intros Hnd. unfold dict_eq. rewrite bool_decide_eq_true_2 by done.
  apply dict_eq_cells. intros [k v] Hin. by apply dict_get_NoDup.
Qed.

(** C6. Decoding the JSON text written for a record as the loader reads
    it gives a record with the same fields, in the same order, and the same
    cell in every field, both for [json.loads] alone and for the decoding
    the scans apply to the stored bytes.  The decoded record is equal to
    the original in the sense of [==] exactly when no cell is NaN: a NaN
    cell is read back as NaN, which is equal to nothing. *)
Theorem json_roundtrip d :
  csv_record d = true →
  ∃ d', Json.loads (Json.dumps d) = Returned d'
        ∧ decode_item (Json.dumps d) = Returned d'
        ∧ d' = d
        ∧ dict_eq d' d = negb (has_nan d).
Proof.
  intros Hd%csv_record_flat. exists d.
  split_and!; [by apply JsonFacts.loads_dumps|by apply decode_item_dumps|done|].
  apply dict_eq_refl. unfold Json.flat_record in Hd.
  apply andb_true_iff in Hd as [Hnd _]. by apply bool_decide_eq_true in Hnd.
Qed.


(** * The theorems at work on the example world *)

(** Descending order on the unpadded key names puts [record_10] between
    [record_2] and [record_1]. *)
Example recent_keys_eleven :
  recent_keys 20 (record_key <$> seq 0 11)
  = ["record_9"; "record_8"; "record_7"; "record_6"; "record_5"; "record_4";
     "record_3"; "record_2"; "record_10"; "record_1"; "record_0"].
Proof. by vm_compute. Qed.

(** The example records lack four of the six categorical columns: the
    [KeyError] is caught and the heatmap method returns [None]. *)
Example heatmap_missing_column :
  (heatmap_using_recent_data keys_of (λ df, Returned df)
     (upload_csv_to_redis example_source example_path example_world).2).1
  = Returned None.
Proof. by vm_compute. Qed.

(** The text [json.dumps] writes for a cell: floats as [float.__repr__]
    prints them, in fixed notation from 0.0001 up to 16 digits before the
    point and in exponent notation otherwise. *)
Example encode_value_examples :
  Json.encode_value
    <$> [VFloat f16_6; VFloat f3_0; VFloat f1_5em5; VFloat fm2_5e20;
         VFloat (FFin false 1 15); VFloat (FFin false 1 16);
         VFloat (FFin false 12345678901234568 1); VFloat (FFin false 1 (-4));
         VFloat (FFin false 1 (-5)); VFloat (FFin false 12345 (-9));
         VFloat (FFin true 0 0); VFloat (FFin false 5 (-324));
         VFloat (FFin false 17976931348623157 292);
         VFloat FNaN; VFloat (FInf false); VFloat (FInf true);
         VBool true; VBool false; VNull; VInt (-7)]
  = ["16.6"; "3.0"; "1.5e-05"; "-2.5e+20";
     "1000000000000000.0"; "1e+16";
     "1.2345678901234568e+17"; "0.0001";
     "1e-05"; "1.2345e-05";
     "-0.0"; "5e-324";
     "1.7976931348623157e+308";
     "NaN"; "Infinity"; "-Infinity";
     "true"; "false"; "null"; "-7"].
Proof. by vm_compute. Qed.

(** What [json.loads] makes of some values: a number with a fraction or
    an exponent is a float, [-0] is the integer 0, and a number needs a
    digit on each side of the point and after the exponent mark. *)
Example loads_examples :
  (λ v, Json.loads (member v))
    <$> ["1.50"; "1e2"; "1E+2"; "120.0e-1"; "-0"; "-0.0"; "0e0"; "7";
         "NaN"; "-Infinity"; "true"; "false"; "null";
         "1."; ".5"; "1e"; "1e+"; "01.5"; "+1"; "-NaN"; "tru"; "1.5x"]
  = [Returned [(str "a", VFloat (FFin false 15 (-1)))];
     Returned [(str "a", VFloat (FFin false 1 2))];
     Returned [(str "a", VFloat (FFin false 1 2))];
     Returned [(str "a", VFloat (FFin false 12 0))];
     Returned [(str "a", VInt 0)];
     Returned [(str "a", VFloat (FFin true 0 0))];
     Returned [(str "a", VFloat (FFin false 0 0))];
     Returned [(str "a", VInt 7)];
     Returned [(str "a", VFloat FNaN)];
     Returned [(str "a", VFloat (FInf true))];
     Returned [(str "a", VBool true)];
     Returned [(str "a", VBool false)];
     Returned [(str "a", VNull)];
     Raised JSONDecodeError; Raised JSONDecodeError; Raised JSONDecodeError;
     Raised JSONDecodeError; Raised JSONDecodeError; Raised JSONDecodeError;
     Raised JSONDecodeError; Raised JSONDecodeError; Raised JSONDecodeError].
Proof. by vm_compute. Qed.

(** The codes of a column of floats with an empty cell, and [==] on
    cells: numbers are equal by value whatever their type, NaN is equal to
    nothing. *)
Example cell_comparison_examples :
  cat_codes [VFloat f16_6; VFloat f3_0; VFloat FNaN; VFloat f16_6]
  = [1; 0; -1; 1]%Z
  ∧ py_eq (VInt 3) (VFloat f3_0) = true
  ∧ py_eq (VBool true) (VInt 1) = true
  ∧ py_eq (VStr (str "3")) (VInt 3) = false
  ∧ py_eq (VFloat FNaN) (VFloat FNaN) = false
  ∧ py_eq VNull VNull = true
  ∧ py_eq VNull (VInt 0) = false
  ∧ py_eq (VFloat (FFin true 0 0)) (VFloat (FFin false 0 0)) = true.
Proof. by vm_compute. Qed.

Lemma example_rows_flat : Forall (λ r, Json.flat_record r = true) example_rows.
Proof. repeat constructor. Qed.

Lemma keys_of_keys m : keys_of m ≡ₚ (map_to_list m).*1.
Proof. reflexivity. Qed.

Lemma csv_rows_ok : Forall (λ r, csv_record r = true) csv_rows.
Proof. repeat constructor. Qed.

Lemma load_then_scan_witness :
  csv_source example_path = Returned csv_rows
  ∧ Forall (λ r, csv_record r = true) csv_rows
  ∧ reliable example_world = true
  ∧ (upload_csv_to_redis csv_source example_path example_world).1
    = Returned true
  ∧ ∃ rows,
      (redis_data_to_dataframe keys_of
         (upload_csv_to_redis csv_source example_path example_world).2).1
      = Returned (Some rows)
      ∧ length rows = length csv_rows
      ∧ rows ≡ₚ csv_rows.
Proof.
  split; [reflexivity|]. split; [exact csv_rows_ok|]. split; [reflexivity|].
  apply (load_then_scan csv_source keys_of keys_of_keys);
    [reflexivity|exact csv_rows_ok|reflexivity].
Defined.

(** C6 as it is stated does not hold: the record read back for a record
    with a NaN cell is not equal to it. *)
Lemma json_roundtrip_nan :
  csv_record nan_record = true
  ∧ ∃ d', decode_item (Json.dumps nan_record) = Returned d'
          ∧ dict_eq d' nan_record = false.
Proof.
  split; [reflexivity|]. exists nan_record. split; reflexivity.
Qed.

Lemma json_roundtrip_witness :
  csv_record csv_row_1 = true
  ∧ ∃ d', Json.loads (Json.dumps csv_row_1) = Returned d'
          ∧ decode_item (Json.dumps csv_row_1) = Returned d'
          ∧ d' = csv_row_1
          ∧ dict_eq d' csv_row_1 = negb (has_nan csv_row_1).
Proof.
  split; [reflexivity|]. apply json_roundtrip. reflexivity.
Defined.

Lemma recent_keys_order_witness :
  (∀ m, keys_of m ≡ₚ (map_to_list m).*1)
  ∧ (∀ limit keys,
       length (recent_keys limit keys) ≤ limit
       ∧ ∃ sorted, sorted ≡ₚ keys ∧ Sorted key_ge sorted
                   ∧ recent_keys limit keys = take limit sorted)
  ∧ (∀ m : gmap string string,
       dom m = list_to_set (record_key <$> seq 0 11) →
       recent_keys 1 (keys_of m) = ["record_9"]).
Proof.
  split; [exact keys_of_keys|]. exact (recent_keys_order keys_of keys_of_keys).
Defined.

Lemma upload_postcondition_witness :
  csv_source example_path = Returned csv_rows
  ∧ (upload_csv_to_redis csv_source example_path example_world).1
    = Returned true
  ∧ size (db (upload_csv_to_redis csv_source example_path example_world).2)
    = length csv_rows
  ∧ dom (db (upload_csv_to_redis csv_source example_path example_world).2)
    = list_to_set (record_key <$> seq 0 (length csv_rows))
  ∧ ∀ i r, csv_rows !! i = Some r →
      db (upload_csv_to_redis csv_source example_path example_world).2
        !! record_key i = Some (Json.dumps r)
      ∧ (csv_record r = true → decode_item (Json.dumps r) = Returned r).
Proof.
  split; [reflexivity|]. split; [reflexivity|].
  apply (upload_postcondition csv_source example_path example_world csv_rows);
    reflexivity.
Defined.

Lemma scan_all_empty_witness :
  db (World ∅ []) = ∅
  ∧ reliable (World ∅ []) = true
  ∧ (redis_data_to_dataframe keys_of (World ∅ [])).1 = Returned (Some []).
Proof.
  split; [reflexivity|]. split; [reflexivity|].
  apply (scan_all_empty keys_of keys_of_keys); reflexivity.
Defined.

Lemma scan_recent_count_witness :
  (∀ m, keys_of m ≡ₚ (map_to_list m).*1)
  ∧ (∀ rows w',
       scan_recent keys_of decode_item 1
         (upload_csv_to_redis example_source example_path example_world).2
       = (Returned rows, w') →
       length rows ≤ 1
       ∧ length rows
         = 1 `min` size (db (upload_csv_to_redis example_source example_path
                               example_world).2))
  ∧ (reliable (upload_csv_to_redis example_source example_path example_world).2
     = true →
     (∀ k v,
        db (upload_csv_to_redis example_source example_path example_world).2 !! k
        = Some v →
        ∃ a, decode_item v = Returned a) →
     ∃ rows,
       (scan_recent keys_of decode_item 1
          (upload_csv_to_redis example_source example_path example_world).2).1
       = Returned rows).
Proof.
  split; [exact keys_of_keys|].
  exact (scan_recent_count keys_of keys_of_keys decode_item 1
           (upload_csv_to_redis example_source example_path example_world).2).
Defined.

(** C8 without that proviso does not hold: on a keyspace that holds a
    value which is not JSON the scan raises inside the method's [try] and
    no row is returned. *)
Lemma scan_recent_undecodable :
  db example_world ≠ ∅
  ∧ (scan_recent keys_of decode_item 1 example_world).1 = Raised JSONDecodeError
  ∧ ¬ ∃ rows,
        (scan_recent keys_of decode_item 1 example_world).1 = Returned rows
        ∧ length rows = 1 `min` size (db example_world).
Proof.
  assert (Hscan : (scan_recent keys_of decode_item 1 example_world).1
                  = Raised JSONDecodeError).
  { vm_compute. reflexivity. }
  split_and!.
  - apply map_non_empty_singleton.
  - exact Hscan.
  - intros (rows & Hrows & _). rewrite Hscan in Hrows. discriminate Hrows.
Qed.

Lemma upload_idempotent_witness :
  reliable example_world = true
  ∧ (upload_csv_to_redis example_source example_path
       (upload_csv_to_redis example_source example_path example_world).2).1
    = (upload_csv_to_redis example_source example_path example_world).1
  ∧ db (upload_csv_to_redis example_source example_path
          (upload_csv_to_redis example_source example_path example_world).2).2
    = db (upload_csv_to_redis example_source example_path example_world).2.
Proof.
  split; [reflexivity|].
  apply (upload_idempotent example_source example_path example_world).
  reflexivity.
Defined.

Lemma upload_unreadable_source_witness :
  example_source "missing.csv" = Raised FileNotFoundError
  ∧ hd false (faults example_world) = false
  ∧ (upload_csv_to_redis example_source "missing.csv" example_world).1
    = Returned false
  ∧ db (upload_csv_to_redis example_source "missing.csv" example_world).2 = ∅.
Proof.
  split; [reflexivity|]. split; [reflexivity|].
  apply (upload_unreadable_source example_source "missing.csv" example_world
           FileNotFoundError); reflexivity.
Defined.

(** * Further properties of the three methods *)

Lemma upload_records_fault data idx j fs w :
  j < length data →
  faults w = replicate j false ++ true :: fs →
  upload_records idx data w
  = (Raised RedisError,
     World (list_to_map (stored_items idx (take j data)) ∪ db w) fs).
Proof.
  revert data idx w. induction j as [|j IH]; intros data idx w Hj Hf.
  - destruct data as [|r data]; [simpl in Hj; lia|].
    simpl. rewrite bind_unfold. unfold redis_set, redis_command.
    rewrite Hf. simpl. by rewrite (left_id_L ∅ (∪)).
  - destruct data as [|r data]; [simpl in Hj; lia|].
    simpl in Hj. simpl upload_records. rewrite bind_unfold.
    unfold redis_set, redis_command. rewrite Hf. simpl replicate.
    cbn [app fst snd]. rewrite (IH data (S idx)); [|lia|done].
    cbn [db take]. rewrite stored_items_cons. simpl.
    rewrite <- insert_union_r by (apply stored_items_fresh; lia).
    by rewrite insert_union_l.
Qed.

Section MoreFacts.

Variable read_records : string → outcome (list record).
Variable key_order : gmap string string → list string.
Hypothesis key_order_keys : ∀ m, key_order m ≡ₚ (map_to_list m).*1.


(** X2. No rollback: when the SET of record number [j] fails, the load
    returns [False] and the keyspace holds exactly the [j] records written
    before it, whatever it held at the start. *)
Theorem upload_partial csv_path w data j fs :
  read_records csv_path = Returned data →
  j < length data →
  faults w = false :: replicate j false ++ true :: fs →
  upload_csv_to_redis read_records csv_path w
  = (Returned false, World (list_to_map (stored_items 0 (take j data))) fs).
Proof.
  intros Hread Hj Hf. rewrite upload_unfold, Hread.
  unfold redis_flushall, redis_command. rewrite Hf. cbn [fst snd].
  rewrite (upload_records_fault data 0 j fs); [|done..].
  cbn [db]. by rewrite (right_id_L ∅ (∪)).
Qed.

(** X3. A source without rows (a header only): as soon as FLUSHALL goes
    through, the load returns [True] and leaves the keyspace empty; no SET
    is sent, so later failures of the server do not matter. *)
Theorem upload_empty_source csv_path w :
  read_records csv_path = Returned [] →
  hd false (faults w) = false →
  upload_csv_to_redis read_records csv_path w
  = (Returned true, World ∅ (tail (faults w))).
Proof.
  intros Hread Hhd. rewrite upload_unfold, Hread.
  destruct (redis_flushall_cases w) as [(fs & Hfs & _) | ->]; [|done].
  by rewrite Hfs in Hhd.
Qed.

Section MoreScanFacts.

Context {A : Type} (decode : string → outcome A).

Lemma redis_command_db_same {B} (f : gmap string string → B) w :
  db (redis_command (λ s, (f s, s)) w).2 = db w.
Proof. unfold redis_command. by destruct (faults w) as [|[] fs]. Qed.

Lemma fetch_db keys data w : db (fetch decode keys data w).2 = db w.
Proof.
  revert data w. induction keys as [|key keys IH]; intros data w; [done|].
  simpl. rewrite bind_unfold.
  destruct (redis_get_cases key w) as [(fs & _ & ->)|[-> _]]; [done|].
  destruct (db w !! key) as [v|]; [|by rewrite IH].
  rewrite bind_unfold. unfold lift.
  destruct (decode v) as [a|e]; [|done]. by rewrite IH.
Qed.

Lemma scan_recent_db limit w :
  db (scan_recent key_order decode limit w).2 = db w.
Proof.
  unfold scan_recent. rewrite bind_unfold.
  destruct (redis_keys_cases key_order w) as [(fs & _ & ->)|[-> _]]; [done|].
  by rewrite fetch_db.
Qed.

Lemma scan_all_db w : db (scan_all key_order decode w).2 = db w.
Proof.
  unfold scan_all, try_except. rewrite bind_unfold.
  destruct (redis_keys_cases key_order w) as [(fs & _ & ->)|[-> _]]; [done|].
  rewrite bind_unfold.
  destruct (redis_keys_cases key_order (World (db w) (tail (faults w))))
    as [(fs & _ & ->)|[-> _]]; [done|].
  rewrite bind_unfold. cbn [db].
  pose proof (fetch_db (key_order (db w)) [] (World (db w) (tail (tail (faults w)))))
    as Hdb.
  destruct (fetch decode _ _ _) as [[rows|e] w3]; cbn [snd db] in *.
  - by destruct rows.
  - by destruct e.
Qed.

(** X5. The loop of both scans skips a key whose value is missing and is
    not stopped by it: on a server that does not fail, it appends the
    decoded values of the keys that are present, in the order of the keys. *)
Theorem fetch_skips_missing (row : string → A) keys data w :
  reliable w = true →
  (∀ k v, k ∈ keys → db w !! k = Some v → decode v = Returned (row k)) →
  (fetch decode keys data w).1
  = Returned (data ++ (row <$> filter (λ k, is_Some (db w !! k)) keys)).
Proof.
  revert data w. induction keys as [|key keys IH]; intros data w Hw Hdec.
  - simpl. by rewrite (right_id_L [] (++)).
  - simpl. rewrite bind_unfold.
    destruct (redis_get_cases key w) as [(fs & Hfs & _)|[-> Hw']].
    { unfold reliable in Hw. by rewrite Hfs in Hw. }
    destruct (db w !! key) as [v|] eqn:Hv.
    + rewrite bind_unfold. unfold lift.
      rewrite (Hdec key v) by (done || left).
      rewrite filter_cons_True by (by rewrite Hv).
      rewrite IH; [by rewrite <- (assoc_L (++))|by apply Hw'|].
      intros k v' Hk. apply Hdec. by right.
    + rewrite filter_cons_False by (rewrite Hv; by intros [? ?]).
      rewrite IH; [done|by apply Hw'|].
      intros k v' Hk. apply Hdec. by right.
Qed.

Lemma fetch_undecodable keys data w k v e :
  reliable w = true →
  k ∈ keys → db w !! k = Some v → decode v = Raised e →
  ∃ e', (fetch decode keys data w).1 = Raised e'.
Proof.
  revert data w. induction keys as [|key keys IH]; intros data w Hw Hk Hv He.
  - by apply elem_of_nil in Hk.
  - simpl. rewrite bind_unfold.
    destruct (redis_get_cases key w) as [(fs & Hfs & _)|[-> Hw']].
    { unfold reliable in Hw. by rewrite Hfs in Hw. }
    destruct (db w !! key) as [v0|] eqn:Hv0.
    + rewrite bind_unfold. unfold lift.
      destruct (decode v0) as [a|e0] eqn:Hd0; [|by eexists].
      apply elem_of_cons in Hk as [->|Hk].
      * rewrite Hv0 in Hv. injection Hv as ->. by rewrite He in Hd0.
      * by apply IH; [apply Hw'|..].
    + apply elem_of_cons in Hk as [->|Hk]; [by rewrite Hv0 in Hv|].
      by apply IH; [apply Hw'|..].
Qed.

(** X6. No partial result: if one stored value does not decode, a full
    scan on a server that does not fail returns [None], however many other
    values decode. *)
Theorem scan_all_undecodable w k v e :
  reliable w = true →
  db w !! k = Some v → decode v = Raised e →
  (scan_all key_order decode w).1 = Returned None.
Proof.
  intros Hw Hv He. unfold scan_all, try_except. rewrite bind_unfold.
  destruct (redis_keys_cases key_order w) as [(fs & Hfs & _)|[-> Hw1]].
  { unfold reliable in Hw. by rewrite Hfs in Hw. }
  specialize (Hw1 Hw). rewrite bind_unfold.
  destruct (redis_keys_cases key_order (World (db w) (tail (faults w))))
    as [(fs & Hfs & _)|[-> Hw2]].
  { unfold reliable in Hw1. by rewrite Hfs in Hw1. }
  specialize (Hw2 Hw1). cbn [db] in *. rewrite bind_unfold.
  destruct (fetch_undecodable (key_order (db w)) []
              (World (db w) (tail (tail (faults w)))) k v e Hw2) as [e' He'];
    [by apply (key_order_elem key_order key_order_keys)|done..|].
  destruct (fetch decode _ _ _) as [o w3]. simpl in He'. subst o.
  by destruct e'.
Qed.

Lemma reliable_tail w :
  reliable w = true → reliable (World (db w) (tail (faults w))) = true.
Proof. unfold reliable. simpl. by destruct (faults w) as [|[] fs]. Qed.

Lemma redis_command_run {B} (cmd : gmap string string → B * gmap string string) w :
  reliable w = true →
  redis_command cmd w
  = (Returned (cmd (db w)).1, World (cmd (db w)).2 (drop 1 (faults w))).
Proof.
  intros Hw. unfold redis_command, reliable in *.
  by destruct (faults w) as [|[] fs].
Qed.

Lemma fetch_run (row : string → A) keys data w :
  reliable w = true →
  (∀ k, k ∈ keys → ∃ v, db w !! k = Some v ∧ decode v = Returned (row k)) →
  fetch decode keys data w
  = (Returned (data ++ (row <$> keys)),
     World (db w) (drop (length keys) (faults w))).
Proof.
  revert data w. induction keys as [|key keys IH]; intros data w Hw Hin.
  - simpl. rewrite (right_id_L [] (++)). by destruct w.
  - simpl fetch. rewrite bind_unfold. unfold redis_get.
    rewrite redis_command_run by done. cbn [fst snd].
    destruct (Hin key) as (v & -> & Hv); [left|].
    rewrite bind_unfold. unfold lift. rewrite Hv.
    rewrite IH; cbn [db faults].
    + by rewrite <- (assoc_L (++)), drop_drop.
    + unfold reliable in *. simpl. by destruct (faults w) as [|[] fs].
    + intros k Hk. apply Hin. by right.
Qed.

(** X7. A full scan on a server that does not fail, over values that all
    decode, returns the decoded values in the order in which KEYS lists the
    keys; it leaves the keyspace as it is and has sent KEYS twice and one
    GET per key. *)
Theorem scan_all_in_key_order (row : string → A) w :
  reliable w = true →
  (∀ k v, db w !! k = Some v → decode v = Returned (row k)) →
  scan_all key_order decode w
  = (Returned (Some (row <$> key_order (db w))),
     World (db w) (drop (2 + size (db w)) (faults w))).
Proof.
  intros Hw Hdec. unfold scan_all, try_except. rewrite bind_unfold.
  unfold redis_keys at 1. rewrite redis_command_run by done. cbn [fst snd].
  rewrite bind_unfold. unfold redis_keys at 1.
  assert (Hw1 : reliable (World (db w) (drop 1 (faults w))) = true).
  { unfold reliable in *. simpl. by destruct (faults w) as [|[] fs]. }
  rewrite redis_command_run by done. cbn [fst snd db faults].
  rewrite bind_unfold.
  rewrite (fetch_run row); cbn [db faults].
  - rewrite !drop_drop, (key_order_length key_order key_order_keys), app_nil_l.
    by destruct (row <$> key_order (db w)).
  - unfold reliable in *. simpl.
    destruct (faults w) as [|[] [|[] fs]]; try done.
  - intros k [v Hv]%(key_order_elem key_order key_order_keys). eauto.
Qed.

Lemma fetch_fault keys data w i :
  (∀ k, k ∈ keys → is_Some (db w !! k)) →
  i < length keys → faults w !! i = Some true →
  ∃ e, (fetch decode keys data w).1 = Raised e.
Proof.
  revert data w i. induction keys as [|key keys IH]; intros data w i Hin Hi Hf.
  { simpl in Hi. lia. }
  simpl fetch. rewrite bind_unfold. unfold redis_get, redis_command.
  destruct (faults w) as [|[] fs] eqn:Hfs; [done|by eexists|].
  cbn [fst snd]. destruct (Hin key) as [v ->]; [left|].
  rewrite bind_unfold. unfold lift.
  destruct (decode v) as [a|e]; [|by eexists].
  destruct i as [|i]; [done|]. simpl in Hi, Hf.
  apply (IH _ _ i); [|lia|done].
  intros k Hk. apply Hin. by right.
Qed.

(** X21. A Redis failure at any point of a full scan, at one of the two
    KEYS or at the GET of any key, makes it return [None]. *)
Theorem scan_all_store_failure w i :
  i < 2 + size (db w) → faults w !! i = Some true →
  (scan_all key_order decode w).1 = Returned None.
Proof.
  intros Hi Hf. unfold scan_all, try_except. rewrite bind_unfold.
  unfold redis_keys at 1. unfold redis_command.
  destruct (faults w) as [|[] fs] eqn:Hfs; [done|done|].
  cbn [fst snd]. rewrite bind_unfold. unfold redis_keys at 1.
  unfold redis_command. cbn [faults db].
  destruct i as [|i]; [done|]. simpl in Hf.
  destruct fs as [|[] fs]; [done|done|].
  cbn [fst snd]. rewrite bind_unfold.
  destruct i as [|i]; [done|]. simpl in Hf.
  destruct (fetch_fault (key_order (db w)) [] (World (db w) fs) i) as [e He].
  - intros k Hk. by apply (key_order_elem key_order key_order_keys).
  - rewrite (key_order_length key_order key_order_keys). lia.
  - done.
  - destruct (fetch decode _ _ _) as [o w3]. simpl in He. subst o.
    by destruct e.
Qed.

End MoreScanFacts.

Lemma stored_decodes data k v :
  Forall (λ r, Json.flat_record r = true) data →
  (list_to_map (stored_items 0 data) : gmap string string) !! k = Some v →
  decode_item v = Returned (row_of data k).
Proof.
  intros Hflat Hv.
  apply elem_of_list_to_map_2 in Hv as Hin.
  apply list_elem_of_lookup in Hin as [i Hi].
  unfold stored_items in Hi.
  apply list_lookup_imap_Some in Hi as (r & Hr & [= -> ->]).
  assert (Json.flat_record r = true) as Hfr.
  { rewrite Forall_forall in Hflat. apply Hflat. by eapply list_elem_of_lookup_2. }
  rewrite (row_of_key data i r) by done. by apply decode_item_dumps.
Qed.

(** X8. After a load of records as the loader reads them, on a server
    that does not fail, a recent scan returns the records stored under the
    selected keys, in descending order of the key names; with a limit of at
    least the batch size these are all the loaded records, otherwise there
    are [limit] of them. *)
Theorem scan_recent_after_load csv_path w data limit :
  read_records csv_path = Returned data →
  Forall (λ r, csv_record r = true) data →
  reliable w = true →
  ∃ rows,
    (scan_recent key_order decode_item limit
       (upload_csv_to_redis read_records csv_path w).2).1 = Returned rows
    ∧ rows = row_of data
               <$> recent_keys limit
                     (key_order (db (upload_csv_to_redis read_records csv_path w).2))
    ∧ (length data ≤ limit → rows ≡ₚ data)
    ∧ (limit ≤ length data → length rows = limit).
Proof.
  intros Hread Hcsv Hw.
  assert (Hflat : Forall (λ r, Json.flat_record r = true) data).
  { eapply Forall_impl; [exact Hcsv|]. intros r. apply csv_record_flat. }
  destruct (upload_reliable read_records csv_path w Hw) as [Hw1 Hup].
  rewrite Hread in Hup. destruct Hup as [_ Hdb].
  eexists. split_and!; [|reflexivity|..].
  - unfold scan_recent. rewrite bind_unfold.
    destruct (redis_keys_cases key_order
                (upload_csv_to_redis read_records csv_path w).2)
      as [(fs & Hfs & _)|[-> Hw2]].
    { unfold reliable in Hw1. by rewrite Hfs in Hw1. }
    rewrite (fetch_reliable decode_item (row_of data)); [done|by apply Hw2|].
    intros k Hk%recent_keys_elem. cbn [db] in *.
    apply (key_order_elem key_order key_order_keys) in Hk as [v Hv].
    exists v. split; [done|]. rewrite Hdb in Hv. by apply stored_decodes.
  - intros Hlen. unfold recent_keys.
    rewrite take_ge.
    + rewrite merge_sort_Permutation, key_order_keys, Hdb.
      rewrite map_to_list_to_map by apply stored_items_NoDup.
      by rewrite rows_of_stored.
    + rewrite merge_sort_Permutation, (key_order_length key_order key_order_keys).
      by rewrite Hdb, stored_size.
  - intros Hlen. rewrite length_fmap, recent_keys_length.
    rewrite (key_order_length key_order key_order_keys), Hdb, stored_size. lia.
Qed.

Section MoreHeatmapFacts.

Context {H : Type} (plot : list (pystr * list value) → outcome H).

(** X4. The two scans only read: whatever fails, the keyspace after
    [redis_data_to_dataframe] or [heatmap_using_recent_data] is the keyspace
    before it. *)
Theorem scans_read_only w :
  db (redis_data_to_dataframe key_order w).2 = db w
  ∧ db (heatmap_using_recent_data key_order plot w).2 = db w.
Proof.
  split; [apply scan_all_db|].
  unfold heatmap_using_recent_data, try_except. rewrite bind_unfold.
  pose proof (scan_recent_db decode_item (N.to_nat 50000) w) as Hdb.
  destruct (scan_recent key_order decode_item _ w) as [[rows|e] w1];
    cbn [snd] in Hdb; [|done].
  rewrite bind_unfold. unfold lift.
  destruct (encode_categorical _ _) as [df|e]; [|done].
  rewrite bind_unfold.
  destruct (select_columns _ _) as [cols|e]; [|done].
  rewrite bind_unfold. by destruct (plot cols) as [h|e].
Qed.

End MoreHeatmapFacts.

End MoreFacts.

(** X9. Unlike the full scan, the recent scan does not depend on the order
    in which the server lists its keys: two servers that list the same keys
    in different orders give the same result. *)
Theorem scan_recent_order_independent {A} (decode : string → outcome A)
    (order1 order2 : gmap string string → list string) limit w :
  (∀ m, order1 m ≡ₚ (map_to_list m).*1) →
  (∀ m, order2 m ≡ₚ (map_to_list m).*1) →
  scan_recent order1 decode limit w = scan_recent order2 decode limit w.
Proof.
  intros H1 H2. unfold scan_recent. rewrite !bind_unfold.
  unfold redis_keys, redis_command.
  assert (Hkeys : recent_keys limit (order1 (db w)) = recent_keys limit (order2 (db w))).
  { unfold recent_keys. f_equal.
    apply (Sorted_unique key_ge); [apply (Sorted_merge_sort _)..|].
    by rewrite !merge_sort_Permutation, H1, H2. }
  destruct (faults w) as [|[] fs]; cbn [fst snd]; by rewrite ?Hkeys.
Qed.

(** * Further properties of the categorical step and the heatmap *)

Lemma column_Returned df col vs :
  column df col = Returned vs ↔ has_column df col = true ∧ vs = cells df col.
Proof.
  unfold column, cells. destruct (has_column df col); split.
  - by intros [= <-].
  - by intros [_ ->].
  - done.
  - by intros [? _].
Qed.

Lemma column_Raised df col e :
  column df col = Raised e ↔ has_column df col = false ∧ e = KeyError.
Proof.
  unfold column. destruct (has_column df col); split; try done.
  - by intros [? _].
  - by intros [= <-].
  - by intros [_ ->].
Qed.

Lemma has_column_set df col col' ws :
  has_column df col = true → length ws = length df →
  has_column (set_column df col ws) col' = has_column df col'.
Proof.
  intros Hcol Hlen. destruct (decide (col = col')) as [<-|Hne].
  - rewrite Hcol.
    assert (df ≠ []) as Hdf by (by intros ->).
    pose proof (column_set_eq df col ws Hdf Hlen) as Hc.
    by apply column_Returned in Hc as [? _].
  - pose proof (column_set_ne df col col' ws Hne Hlen) as Hc.
    destruct (has_column df col') eqn:Hh.
    + assert (column df col' = Returned (cells df col')) as Hr
        by (by apply column_Returned).
      rewrite Hr in Hc. by apply column_Returned in Hc as [? _].
    + assert (column df col' = Raised KeyError) as Hr
        by (by apply column_Raised).
      rewrite Hr in Hc. by apply column_Raised in Hc as [? _].
Qed.

(** X10. The categorical step succeeds exactly when every listed column
    occurs in some row; otherwise it raises [KeyError], whichever column is
    missing. *)
Theorem encode_categorical_iff cols df :
  ((∃ df', encode_categorical cols df = Returned df')
   ↔ ∀ col, col ∈ cols → has_column df col = true)
  ∧ (∀ e, encode_categorical cols df = Raised e → e = KeyError).
Proof.
  revert df. induction cols as [|c cols IH]; intros df.
  - split; [|done]. split; [by intros _ col ?%elem_of_nil|by eexists].
  - simpl. destruct (column df c) as [vs|e] eqn:Hcol.
    + apply column_Returned in Hcol as [Hc ->].
      assert (Hlen : length (map VInt (cat_codes (cells df c))) = length df).
      { unfold cells. by rewrite length_map, length_cat_codes, length_map. }
      destruct (IH (set_column df c (map VInt (cat_codes (cells df c)))))
        as [Hiff Hraise].
      split; [|done]. rewrite Hiff. split.
      * intros Hall col [->|Hin]%elem_of_cons; [done|].
        rewrite <- (has_column_set df c col _ Hc Hlen). by apply Hall.
      * intros Hall col Hin. rewrite (has_column_set df c col _ Hc Hlen).
        apply Hall. by right.
    + apply column_Raised in Hcol as [Hc ->]. split; [|by intros e [= <-]].
      split; [by intros [df' ?]|].
      intros Hall. rewrite Hall in Hc; [done|left].
Qed.

Lemma encode_categorical_ok cols df :
  (∀ col, col ∈ cols → has_column df col = true) →
  ∃ df', encode_categorical cols df = Returned df'.
Proof.
  revert df. induction cols as [|c cols IH]; intros df Hall; [by eexists|].
  simpl. assert (Hc : has_column df c = true) by (apply Hall; left).
  assert (column df c = Returned (cells df c)) as -> by (by apply column_Returned).
  apply IH. intros col Hin. rewrite has_column_set; [apply Hall; by right|done|].
  unfold cells. by rewrite length_map, length_cat_codes, length_map.
Qed.

Lemma encode_categorical_missing cols df col :
  col ∈ cols → has_column df col = false →
  encode_categorical cols df = Raised KeyError.
Proof.
  revert df. induction cols as [|c cols IH]; intros df Hin Hcol.
  { by apply elem_of_nil in Hin. }
  simpl. destruct (column df c) as [vs|e] eqn:Hc.
  - apply column_Returned in Hc as [Hc ->].
    apply elem_of_cons in Hin as [->|Hin]; [by rewrite Hc in Hcol|].
    apply IH; [done|]. rewrite has_column_set; [done..|].
    unfold cells. by rewrite length_map, length_cat_codes, length_map.
  - by apply column_Raised in Hc as [_ ->].
Qed.

Lemma select_columns_map df cols (f : pystr → list value) :
  (∀ col, col ∈ cols → column df col = Returned (f col)) →
  select_columns df cols = Returned (map (λ col, (col, f col)) cols).
Proof.
  induction cols as [|c cols IH]; intros Hall; [done|].
  simpl. rewrite (Hall c) by left. rewrite IH; [done|].
  intros col Hin. apply Hall. by right.
Qed.

Lemma categorical_cols_NoDup : NoDup categorical_cols.
Proof. apply (bool_decide_unpack _). by vm_compute. Qed.

Section HeatmapRuns.

Variable key_order : gmap string string → list string.
Hypothesis key_order_keys : ∀ m, key_order m ≡ₚ (map_to_list m).*1.
Context {H : Type} (plot : list (pystr * list value) → outcome H).

Lemma heatmap_unfold w :
  heatmap_using_recent_data key_order plot w
  = match scan_recent key_order decode_item (N.to_nat 50000) w with
    | (Returned rows, w') =>
        match encode_categorical categorical_cols rows with
        | Returned df =>
            match select_columns df columns_to_include with
            | Returned df_heatmap =>
                match plot df_heatmap with
                | Returned heatmap => (Returned (Some heatmap), w')
                | Raised _ => (Returned None, w')
                end
            | Raised _ => (Returned None, w')
            end
        | Raised _ => (Returned None, w')
        end
    | (Raised _, w') => (Returned None, w')
    end.
Proof.
  unfold heatmap_using_recent_data, try_except. rewrite bind_unfold.
  destruct (scan_recent key_order decode_item _ w) as [[rows|e] w']; [|done].
  rewrite bind_unfold. unfold lift.
  destruct (encode_categorical _ _) as [df|e]; [|done].
  rewrite bind_unfold.
  destruct (select_columns _ _) as [cols|e]; [|done].
  rewrite bind_unfold. by destruct (plot cols).
Qed.

(** X11. If none of the fetched rows has one of the six categorical
    columns, the heatmap method returns [None] and nothing is plotted; in
    particular on an empty keyspace. *)
Theorem heatmap_without_column w :
  (∀ rows w' col,
     scan_recent key_order decode_item (N.to_nat 50000) w = (Returned rows, w') →
     col ∈ categorical_cols → has_column rows col = false →
     heatmap_using_recent_data key_order plot w = (Returned None, w'))
  ∧ (reliable w = true → db w = ∅ →
     (heatmap_using_recent_data key_order plot w).1 = Returned None).
Proof.
  split.
  - intros rows w' col Hscan Hin Hcol. rewrite heatmap_unfold, Hscan.
    by rewrite (encode_categorical_missing _ _ col).
  - intros Hw Hdb. rewrite heatmap_unfold. unfold scan_recent.
    rewrite bind_unfold.
    destruct (redis_keys_cases key_order w) as [(fs & Hfs & _)|[-> _]].
    { unfold reliable in Hw. by rewrite Hfs in Hw. }
    assert (key_order (db w) = []) as ->.
    { apply length_zero_iff_nil.
      by rewrite (key_order_length key_order key_order_keys), Hdb, map_size_empty. }
    done.
Qed.

(** X12. If every one of the six categorical columns occurs in the fetched
    rows, what is handed to the plot is exactly these six columns, each
    holding the category codes of its cells; the method returns the plot,
    or [None] if plotting fails. *)
Theorem heatmap_plots_codes w rows w' :
  scan_recent key_order decode_item (N.to_nat 50000) w = (Returned rows, w') →
  (∀ col, col ∈ categorical_cols → has_column rows col = true) →
  heatmap_using_recent_data key_order plot w
  = (match plot (map (λ col, (col, VInt <$> cat_codes (cells rows col)))
                   columns_to_include) with
     | Returned heatmap => Returned (Some heatmap)
     | Raised _ => Returned None
     end, w').
Proof.
  intros Hscan Hall. rewrite heatmap_unfold, Hscan.
  destruct (encode_categorical_ok categorical_cols rows Hall) as [df Hdf].
  rewrite Hdf.
  destruct (encode_categorical_columns _ _ _ categorical_cols_NoDup Hdf)
    as [Hcols _].
  rewrite (select_columns_map df columns_to_include
             (λ col, VInt <$> cat_codes (cells rows col))).
  - by destruct (plot _).
  - intros col Hin. destruct (Hcols col Hin) as (vs & Hvs & Hcodes).
    apply column_Returned in Hvs as [_ ->]. done.
Qed.

End HeatmapRuns.

(** * Further properties of the codes and of the JSON codec *)




(** X14. Whatever the record holds, the text [json.dumps] writes for it is
    plain ASCII, so the bytes read back from Redis always decode as
    UTF-8. *)
Theorem stored_text_ascii d :
  ascii_text (Json.dumps d) = true
  ∧ utf8_decode (Json.dumps d) = Returned (Json.dumps d).
Proof.
  split; [apply JsonFacts.ascii_dumps|].
  unfold utf8_decode. by rewrite JsonFacts.ascii_dumps.
Qed.

(** X15. Two different records are never written as the same text. *)
Theorem dumps_inj d1 d2 :
  Json.flat_record d1 = true → Json.flat_record d2 = true →
  Json.dumps d1 = Json.dumps d2 → d1 = d2.
Proof.
  intros H1 H2 Heq.
  pose proof (JsonFacts.loads_dumps d1 H1) as Hd1.
  rewrite Heq, (JsonFacts.loads_dumps d2 H2) in Hd1. by injection Hd1.
Qed.

Module JsonMore.
Import Json JsonFacts.

Local Open Scope N_scope.
Local Arguments String.append : simpl nomatch.

Lemma escape_char_bmp c :
  127 ≤ c → c < 65536 → escape_char c = uescape c.
Proof.
  intros Hlo Hhi. unfold escape_char.
  destruct (N.eqb_spec c 92); [lia|]. destruct (N.eqb_spec c 34); [lia|].
  destruct (N.eqb_spec c 8); [lia|]. destruct (N.eqb_spec c 12); [lia|].
  destruct (N.eqb_spec c 10); [lia|]. destruct (N.eqb_spec c 13); [lia|].
  destruct (N.eqb_spec c 9); [lia|].
  destruct (N.leb_spec c 126); [lia|]. rewrite andb_false_r.
  destruct (N.ltb_spec c 65536); [done|lia].
Qed.

(** X16. The round trip needs strings made of characters: a string cell
    that holds a high surrogate followed by a low surrogate is written as
    two [\u] escapes and read back as the single character they encode. *)
Theorem surrogate_pair_merged k h l :
  text k = true → is_high h = true → is_low l = true →
  loads (dumps [(k, VStr [h; l])])
  = Returned [(k, VStr [65536 + N.lor (N.shiftl (h - 55296) 10) (l - 56320)])].
Proof.
  intros Hk Hh Hl.
  assert (Hhr : 55296 ≤ h ≤ 56319).
  { unfold is_high in Hh. apply andb_true_iff in Hh as [?%N.leb_le ?%N.leb_le]. lia. }
  assert (Hlr : 56320 ≤ l ≤ 57343).
  { unfold is_low in Hl. apply andb_true_iff in Hl as [?%N.leb_le ?%N.leb_le]. lia. }
  unfold loads, dumps.
  change ("{" +:+ encode_items [(k, VStr [h; l])] +:+ "}")
    with (String "{"%char (encode_item (k, VStr [h; l]) +:+ String "}"%char EmptyString)).
  rewrite run_cons. change (step ([], Start) "{"%char) with (([] : record), Open).
  unfold encode_item, encode_str; simpl.
  change (step ([], Open) dquote) with (([] : record), InKey sb_init).
  rewrite !sapp_assoc. simpl.
  rewrite (run_encode_str InKey [] k _ str_phase_key Hk (λ k', ([], AfterKey k')));
    [|reflexivity].
  simpl.
  change (step (step ([], AfterKey k) ":"%char) " "%char) with (([] : record), BeforeVal k).
  change (step ([], BeforeVal k) dquote) with (([] : record), InStr k sb_init).
  rewrite !escape_char_bmp by lia. rewrite !sapp_assoc.
  unfold sb_init.
  rewrite (run_uescape (InStr k) [] [] None h (StrBuf [] (Some h) Plain));
    [|apply str_phase_val|lia|].
  2:{ unfold sb_unicode; cbn [sb_pend sb_chars]. by rewrite Hh. }
  rewrite (run_uescape (InStr k) [] [] (Some h) l
             (StrBuf [65536 + N.lor (N.shiftl (h - 55296) 10) (l - 56320)] None Plain));
    [|apply str_phase_val|lia|].
  2:{ unfold sb_unicode; cbn [sb_pend sb_chars]. by rewrite Hl. }
  simpl. done.
Qed.

End JsonMore.

(** * Properties of the constructor and of the entry point *)

Section EntryPointFacts.

Variable read_yaml : string → init_error + yaml.
Variable read_records : string → outcome (list record).
Variable connection_error : exn → bool.

(** X17. The constructor needs a mapping [redis] with [host], [port] and
    [db]; [password] may be left out and is then [None], the same as a
    null password.  The first of [redis], [host], [port], [db] that is
    missing is the key of the error. *)
Theorem RedisDB_init_fields config_file doc :
  read_yaml config_file = inr (YMap doc) →
  RedisDB_init read_yaml config_file
  = match yaml_lookup doc "redis" with
    | None => inl (ConfigKeyError "redis")
    | Some (YMap m) =>
        match yaml_lookup m "host", yaml_lookup m "port", yaml_lookup m "db" with
        | Some h, Some p, Some d =>
            inr (RedisParams h p d (default YNull (yaml_lookup m "password")))
        | None, _, _ => inl (ConfigKeyError "host")
        | Some _, None, _ => inl (ConfigKeyError "port")
        | Some _, Some _, None => inl (ConfigKeyError "db")
        end
    | Some _ => inl ConfigTypeError
    end.
Proof.
  intros Hdoc. unfold RedisDB_init, load_config. rewrite Hdoc. simpl.
  destruct (yaml_lookup doc "redis") as [[| | | | |m]|]; try done.
  simpl. destruct (yaml_lookup m "host"); [|done].
  destruct (yaml_lookup m "port"); [|done].
  by destruct (yaml_lookup m "db").
Qed.

Lemma redis_ping_cases w :
  (∃ fs, faults w = true :: fs
         ∧ redis_ping w = (Raised RedisError, World (db w) fs))
  ∨ redis_ping w = (Returned true, World (db w) (tail (faults w))).
Proof.
  destruct (redis_command_cases (λ s : gmap string string, (true, s)) w)
    as [?|[? _]]; eauto.
Qed.

(** X18. When [main] reports a successful upload, the source was read and
    the keyspace holds exactly its records, whatever it held before; and on
    a server that does not fail, with a usable configuration and a readable
    source, that is how [main] ends. *)
Theorem main_uploaded w :
  ((main read_yaml read_records connection_error w).1
   = Finished [Connected; Uploaded] →
   ∃ data,
     read_records "Data/heart_2020_cleaned.csv" = Returned data
     ∧ db (main read_yaml read_records connection_error w).2
       = list_to_map (stored_items 0 data))
  ∧ (∀ params data,
       RedisDB_init read_yaml "config.yaml" = inr params →
       read_records "Data/heart_2020_cleaned.csv" = Returned data →
       reliable w = true →
       (main read_yaml read_records connection_error w).1
       = Finished [Connected; Uploaded]).
Proof.
  unfold main. split.
  - destruct (RedisDB_init read_yaml "config.yaml") as [e|params]; [done|].
    destruct (redis_ping_cases w) as [(fs & _ & ->) | ->].
    { by destruct (connection_error RedisError). }
    pose proof (upload_true read_records "Data/heart_2020_cleaned.csv"
                  (World (db w) (tail (faults w)))) as Htrue.
    destruct (upload_csv_to_redis read_records _ _) as [[[]|e] w2];
      cbn [fst snd] in *; try done.
    + intros _. by apply Htrue.
    + by destruct (connection_error e).
  - intros params data -> Hread Hw.
    destruct (redis_ping_cases w) as [(fs & Hfs & _) | ->].
    { unfold reliable in Hw. by rewrite Hfs in Hw. }
    destruct (upload_reliable read_records "Data/heart_2020_cleaned.csv"
                (World (db w) (tail (faults w)))) as [_ Hup].
    { unfold reliable in *. simpl. by destruct (faults w) as [|[] fs]. }
    rewrite Hread in Hup. destruct Hup as [Hflag _].
    destruct (upload_csv_to_redis read_records _ _) as [o w2].
    simpl in Hflag. by subst o.
Qed.

(** X19. [main] changes the keyspace only if it got as far as reporting the
    outcome of the upload: if the object cannot be built, or PING or
    FLUSHALL fails, the keyspace is as it was. *)
Theorem main_keyspace_untouched w :
  (main read_yaml read_records connection_error w).1
    ≠ Finished [Connected; Uploaded] →
  (main read_yaml read_records connection_error w).1
    ≠ Finished [Connected; UploadFailed] →
  db (main read_yaml read_records connection_error w).2 = db w.
Proof.
  unfold main.
  destruct (RedisDB_init read_yaml "config.yaml") as [e|params]; [done|].
  destruct (redis_ping_cases w) as [(fs & _ & ->) | ->].
  { by destruct (connection_error RedisError). }
  pose proof (upload_raised read_records "Data/heart_2020_cleaned.csv"
                (World (db w) (tail (faults w)))) as Hraised.
  destruct (upload_csv_to_redis read_records _ _) as [[[]|e] w2];
    cbn [fst snd]; try done.
  intros _ _. destruct (Hraised e w2 eq_refl) as (_ & _ & Hdb).
  by destruct (connection_error e).
Qed.

(** X20. An exception leaves [main] only when PING or FLUSHALL fails with
    a Redis error that is not a [ConnectionError]; a connection error at
    either point ends [main] with the "unable to connect" line, also after
    the "connection successful" line has been printed. *)
Theorem main_propagates w :
  (∀ e printed,
     (main read_yaml read_records connection_error w).1 = Propagated e printed →
     e = RedisError ∧ connection_error e = false
     ∧ (printed = [] ∧ hd false (faults w) = true
        ∨ printed = [Connected] ∧ hd false (tail (faults w)) = true))
  ∧ (∀ params,
       RedisDB_init read_yaml "config.yaml" = inr params →
       connection_error RedisError = true →
       (hd false (faults w) = true →
        (main read_yaml read_records connection_error w).1 = Finished [Unable])
       ∧ (hd false (faults w) = false → hd false (tail (faults w)) = true →
          (main read_yaml read_records connection_error w).1
          = Finished [Connected; Unable])).
Proof.
  unfold main. split.
  - intros e printed.
    destruct (RedisDB_init read_yaml "config.yaml") as [e0|params]; [done|].
    destruct (redis_ping_cases w) as [(fs & Hfs & ->) | ->].
    { destruct (connection_error RedisError) eqn:Hc; [done|].
      intros [= <- <-]. rewrite Hfs. auto. }
    pose proof (upload_raised read_records "Data/heart_2020_cleaned.csv"
                  (World (db w) (tail (faults w)))) as Hraised.
    destruct (upload_csv_to_redis read_records _ _) as [[[]|e'] w2];
      cbn [fst snd]; try done.
    destruct (Hraised e' w2 eq_refl) as (-> & Hhd & _).
    destruct (connection_error RedisError) eqn:Hc; [done|].
    intros [= <- <-]. auto.
  - intros params -> Hc. split.
    + intros Hhd. destruct (redis_ping_cases w) as [(fs & Hfs & ->) | Hping].
      * by rewrite Hc.
      * destruct (faults w) as [|[] fs] eqn:Hf; try done.
        unfold redis_ping, redis_command in Hping. by rewrite Hf in Hping.
    + intros Hhd Hhd'.
      destruct (redis_ping_cases w) as [(fs & Hfs & _) | ->].
      { by rewrite Hfs in Hhd. }
      rewrite upload_unfold. unfold redis_flushall, redis_command. cbn [faults].
      destruct (tail (faults w)) as [|[] fs]; try done.
      by rewrite Hc.
Qed.

End EntryPointFacts.

(** * The further properties at work on the example data *)

Lemma keys_of_reversed_keys m : keys_of_reversed m ≡ₚ (map_to_list m).*1.
Proof. unfold keys_of_reversed. by rewrite reverse_Permutation. Qed.

Lemma heart_rows_flat : Forall (λ r, Json.flat_record r = true) heart_rows.
Proof. repeat constructor. Qed.

Lemma upload_partial_witness :
  example_source example_path = Returned example_rows
  ∧ 1 < length example_rows
  ∧ faults (World {[ "stale" := "junk" ]} [false; false; true])
    = false :: replicate 1 false ++ true :: []
  ∧ upload_csv_to_redis example_source example_path
      (World {[ "stale" := "junk" ]} [false; false; true])
    = (Returned false, World (list_to_map (stored_items 0 (take 1 example_rows))) []).
Proof.
  split; [reflexivity|]. split; [simpl; lia|]. split; [reflexivity|].
  apply (upload_partial example_source example_path _ example_rows 1 []);
    [reflexivity|simpl; lia|reflexivity].
Defined.

Lemma upload_empty_source_witness :
  empty_source example_path = Returned []
  ∧ hd false (faults example_world) = false
  ∧ upload_csv_to_redis empty_source example_path example_world
    = (Returned true, World ∅ (tail (faults example_world))).
Proof.
  split; [reflexivity|]. split; [reflexivity|].
  apply (upload_empty_source empty_source example_path example_world); reflexivity.
Defined.

Lemma fetch_skips_missing_witness :
  reliable loaded_world = true
  ∧ (fetch decode_item ["record_1"; "record_7"; "record_0"] [] loaded_world).1
    = Returned ([] ++ (row_of example_rows
                         <$> filter (λ k, is_Some (db loaded_world !! k))
                               ["record_1"; "record_7"; "record_0"])).
Proof.
  split; [reflexivity|].
  apply (fetch_skips_missing decode_item (row_of example_rows)); [reflexivity|].
  intros k v _ Hv. exact (stored_decodes example_rows k v example_rows_flat Hv).
Defined.

Lemma scan_all_undecodable_witness :
  reliable example_world = true
  ∧ db example_world !! "stale" = Some "junk"
  ∧ decode_item "junk" = Raised JSONDecodeError
  ∧ (scan_all keys_of decode_item example_world).1 = Returned None.
Proof.
  split; [reflexivity|]. split; [reflexivity|]. split; [reflexivity|].
  apply (scan_all_undecodable keys_of keys_of_keys decode_item example_world
           "stale" "junk" JSONDecodeError); reflexivity.
Defined.

Lemma scan_all_in_key_order_witness :
  reliable loaded_world = true
  ∧ scan_all keys_of decode_item loaded_world
    = (Returned (Some (row_of example_rows <$> keys_of (db loaded_world))),
       World (db loaded_world) (drop (2 + size (db loaded_world)) (faults loaded_world))).
Proof.
  split; [reflexivity|].
  apply (scan_all_in_key_order keys_of keys_of_keys decode_item
           (row_of example_rows) loaded_world); [reflexivity|].
  intros k v Hv. exact (stored_decodes example_rows k v example_rows_flat Hv).
Defined.

Lemma scan_all_store_failure_witness :
  1 < 2 + size (db (World {[ "stale" := "junk" ]} [false; true]))
  ∧ faults (World {[ "stale" := "junk" ]} [false; true]) !! 1 = Some true
  ∧ (scan_all keys_of decode_item (World {[ "stale" := "junk" ]} [false; true])).1
    = Returned None.
Proof.
  split; [lia|]. split; [reflexivity|].
  apply (scan_all_store_failure keys_of keys_of_keys decode_item _ 1);
    [lia|reflexivity].
Defined.

Lemma scan_recent_after_load_witness :
  csv_source example_path = Returned csv_rows
  ∧ Forall (λ r, csv_record r = true) csv_rows
  ∧ reliable example_world = true
  ∧ ∃ rows,
      (scan_recent keys_of decode_item 2
         (upload_csv_to_redis csv_source example_path example_world).2).1
      = Returned rows
      ∧ rows = row_of csv_rows
                 <$> recent_keys 2
                       (keys_of (db (upload_csv_to_redis csv_source example_path
                                       example_world).2))
      ∧ (length csv_rows ≤ 2 → rows ≡ₚ csv_rows)
      ∧ (2 ≤ length csv_rows → length rows = 2).
Proof.
  split; [reflexivity|]. split; [exact csv_rows_ok|]. split; [reflexivity|].
  apply (scan_recent_after_load csv_source keys_of keys_of_keys);
    [reflexivity|exact csv_rows_ok|reflexivity].
Defined.

Lemma scan_recent_order_independent_witness :
  (∀ m, keys_of m ≡ₚ (map_to_list m).*1)
  ∧ (∀ m, keys_of_reversed m ≡ₚ (map_to_list m).*1)
  ∧ scan_recent keys_of decode_item 1 loaded_world
    = scan_recent keys_of_reversed decode_item 1 loaded_world.
Proof.
  split; [exact keys_of_keys|]. split; [exact keys_of_reversed_keys|].
  apply scan_recent_order_independent;
    [exact keys_of_keys|exact keys_of_reversed_keys].
Defined.

Lemma heatmap_without_column_witness :
  (∀ m, keys_of m ≡ₚ (map_to_list m).*1)
  ∧ (∀ rows w' col,
       scan_recent keys_of decode_item (N.to_nat 50000) loaded_world
       = (Returned rows, w') →
       col ∈ categorical_cols → has_column rows col = false →
       heatmap_using_recent_data keys_of (λ df, Returned df) loaded_world
       = (Returned None, w'))
  ∧ (reliable loaded_world = true → db loaded_world = ∅ →
     (heatmap_using_recent_data keys_of (λ df, Returned df) loaded_world).1
     = Returned None).
Proof.
  split; [exact keys_of_keys|].
  exact (heatmap_without_column keys_of keys_of_keys (λ df, Returned df) loaded_world).
Defined.

Lemma heatmap_plots_codes_witness :
  scan_recent keys_of decode_item (N.to_nat 50000) heart_world
  = (Returned [heart_rows !!! 1; heart_rows !!! 0], heart_world)
  ∧ heatmap_using_recent_data keys_of (λ df, Returned df) heart_world
    = (match (λ df, Returned df)
               (map (λ col, (col, VInt <$> cat_codes
                                    (cells [heart_rows !!! 1; heart_rows !!! 0] col)))
                  columns_to_include) with
       | Returned heatmap => Returned (Some heatmap)
       | Raised _ => Returned None
       end, heart_world).
Proof.
  assert (Hscan : scan_recent keys_of decode_item (N.to_nat 50000) heart_world
                  = (Returned [heart_rows !!! 1; heart_rows !!! 0], heart_world)).
  { vm_compute. reflexivity. }
  split; [exact Hscan|].
  apply (heatmap_plots_codes keys_of (λ df, Returned df) heart_world _ _ Hscan).
  intros col Hcol. unfold categorical_cols in Hcol.
  repeat (apply elem_of_cons in Hcol as [->|Hcol]; [vm_compute; reflexivity|]).
  destruct (proj1 (elem_of_nil col) Hcol).
Defined.


Lemma dumps_inj_witness :
  Json.flat_record example_record = true
  ∧ Json.dumps example_record = Json.dumps example_record
  ∧ example_record = example_record.
Proof.
  split; [by vm_compute|]. split; [reflexivity|].
  apply dumps_inj; [by vm_compute|by vm_compute|reflexivity].
Defined.

Lemma surrogate_pair_merged_witness :
  Json.text (str "Name") = true
  ∧ Json.is_high 55357 = true ∧ Json.is_low 56832 = true
  ∧ Json.loads (Json.dumps [(str "Name", VStr [55357; 56832]%N)])
    = Returned [(str "Name",
                 VStr [65536 + N.lor (N.shiftl (55357 - 55296) 10) (56832 - 56320)]%N)].
Proof.
  split; [reflexivity|]. split; [reflexivity|]. split; [reflexivity|].
  apply JsonMore.surrogate_pair_merged; reflexivity.
Defined.

Lemma RedisDB_init_fields_witness :
  example_yaml "config.yaml" = inr (YMap example_config)
  ∧ RedisDB_init example_yaml "config.yaml"
    = inr (RedisParams (YStr "localhost") (YInt 6379) (YInt 0) YNull).
Proof.
  split; [reflexivity|].
  exact (RedisDB_init_fields example_yaml "config.yaml" example_config eq_refl).
Defined.

Lemma main_keyspace_untouched_witness :
  (main example_yaml example_source (λ _, true)
     (World {[ "stale" := "junk" ]} [true])).1 ≠ Finished [Connected; Uploaded]
  ∧ (main example_yaml example_source (λ _, true)
       (World {[ "stale" := "junk" ]} [true])).1 ≠ Finished [Connected; UploadFailed]
  ∧ db (main example_yaml example_source (λ _, true)
          (World {[ "stale" := "junk" ]} [true])).2
    = db (World {[ "stale" := "junk" ]} [true]).
Proof.
  assert (Hout : (main example_yaml example_source (λ _, true)
                    (World {[ "stale" := "junk" ]} [true])).1 = Finished [Unable]).
  { vm_compute. reflexivity. }
  assert (H1 : (main example_yaml example_source (λ _, true)
                  (World {[ "stale" := "junk" ]} [true])).1
               ≠ Finished [Connected; Uploaded]).
  { rewrite Hout. discriminate. }
  assert (H2 : (main example_yaml example_source (λ _, true)
                  (World {[ "stale" := "junk" ]} [true])).1
               ≠ Finished [Connected; UploadFailed]).
  { rewrite Hout. discriminate. }
  split; [exact H1|]. split; [exact H2|].
  exact (main_keyspace_untouched example_yaml example_source (λ _, true) _ H1 H2).
Defined.
